(** * oksvg: path compiler, number tokenizer, affine matrices and gradient sampler

    A shallow embedding of the geometric core of oksvg (svgp.go, matrix.go,
    svgd.go and the gradient sampler).

    Numbers.  Go's float64 values are modelled as exact rationals [Q]
    extended with the IEEE special values (+Inf, -Inf, NaN) where the code can
    meet them (number parsing and the path compiler); rounding is not
    modelled.  The gradient sampler works on finite values only and uses [Q]
    directly; the trigonometric parts (matrices, arc centres) use the real
    numbers [R].  Strings are ASCII strings: the code indexes bytes and ranges
    over runes, which coincide on ASCII input. *)

From Stdlib Require Import List String Ascii ZArith QArith Qround Lia Lqa Bool Sorted.
From Stdlib Require Reals Lra Psatz.
Import ListNotations.

Local Open Scope string_scope.

(* ------------------------------------------------------------------ *)
(** ** float64 values *)

Inductive F64 : Type :=
| Fin (q : Q)
| PInf
| NInf
| NaN.

Definition f64_add (x y : F64) : F64 :=
  match x, y with
  | Fin a, Fin b => Fin (a + b)
  | NaN, _ | _, NaN => NaN
  | PInf, NInf | NInf, PInf => NaN
  | PInf, _ | _, PInf => PInf
  | NInf, _ | _, NInf => NInf
  end.

Definition f64_neg (x : F64) : F64 :=
  match x with
  | Fin a => Fin (- a)
  | PInf => NInf
  | NInf => PInf
  | NaN => NaN
  end.

Definition f64_sub (x y : F64) : F64 := f64_add x (f64_neg y).

(** Sign of a value: [Some true] for positive, [Some false] for negative,
    [None] for zero or NaN. *)
Definition f64_sign (x : F64) : option bool :=
  match x with
  | Fin a => if Qeq_bool a 0 then None else Some (Qle_bool 0 a)
  | PInf => Some true
  | NInf => Some false
  | NaN => None
  end.

Definition f64_inf (pos : bool) : F64 := if pos then PInf else NInf.

Definition f64_mul (x y : F64) : F64 :=
  match x, y with
  | Fin a, Fin b => Fin (a * b)
  | NaN, _ | _, NaN => NaN
  | _, _ =>
      match f64_sign x, f64_sign y with
      | Some sx, Some sy => f64_inf (Bool.eqb sx sy)
      | _, _ => NaN  (* infinity times zero *)
      end
  end.

Definition f64_div (x y : F64) : F64 :=
  match x, y with
  | NaN, _ | _, NaN => NaN
  | Fin a, Fin b =>
      if Qeq_bool b 0 then
        (match f64_sign x with Some s => f64_inf s | None => NaN end)
      else Fin (a / b)
  | Fin _, _ => Fin 0
  | _, Fin b =>
      match f64_sign x, f64_sign y with
      | Some sx, Some sy => f64_inf (Bool.eqb sx sy)
      | Some sx, None => f64_inf sx
      | _, _ => NaN
      end
  | _, _ => NaN
  end.

(** Ordered comparisons; every comparison with NaN is false. *)
Definition f64_lt (x y : F64) : bool :=
  match x, y with
  | NaN, _ | _, NaN => false
  | Fin a, Fin b => negb (Qle_bool b a)
  | NInf, NInf | PInf, _ => false
  | NInf, _ => true
  | Fin _, PInf => true
  | Fin _, NInf => false
  end.

Definition f64_gt (x y : F64) : bool := f64_lt y x.

Definition Qtrunc (q : Q) : Z :=
  if Qle_bool 0 q then Qfloor q else (- Qfloor (- q))%Z.

(** [fixed.Int26_6(x * 64)]: truncation toward zero.  The conversion of an
    infinite or NaN value is implementation-defined in Go; amd64 yields the
    "integer indefinite" value -2^31. *)
Definition toFixed (x : F64) : Z :=
  match f64_mul x (Fin 64) with
  | Fin q => Qtrunc q
  | _ => (- 2147483648)%Z
  end.

(* ------------------------------------------------------------------ *)
(** ** strconv.ParseFloat errors and the number tokenizer (svgp.go) *)

Inductive PErr : Type := ErrSyntax | ErrRange.

Definition isNumber (r : ascii) : bool :=
  let n := nat_of_ascii r in (48 <=? n)%nat && (n <=? 57)%nat.

Section Tokenizer.

(** [strconv.ParseFloat(s, 64)]: the value and the error it returns. *)
Variable ParseFloat : string -> F64 * option PErr.

(** [PathCursor.ReadFloat]: appends the parsed value to [points]. *)
Definition ReadFloat (numStr : string) (points : list F64)
  : list F64 * option PErr :=
  match ParseFloat numStr with
  | (_, Some err) => (points, Some err)
  | (f, None) => ((points ++ [f])%list, None)
  end.

(** The loop of [PathCursor.GetPoints]: [lastIndex] is [Some tok] when a
    token [dataPoints[lastIndex:i]] is open, [lr] is the previous rune. *)
Fixpoint getPointsLoop (s : string) (lr : ascii) (lastIndex : option string)
  (points : list F64) : list F64 * option PErr :=
  match s with
  | EmptyString =>
      match lastIndex with
      | Some tok => ReadFloat tok points
      | None => (points, None)
      end
  | String r rest =>
      if negb (isNumber r) && negb (r =? ".")%char
         && negb ((r =? "-")%char && (lr =? "e")%char) && negb (r =? "e")%char
      then
        let res :=
          match lastIndex with
          | Some tok => ReadFloat tok points
          | None => (points, None)
          end in
        match res with
        | (points', Some err) => (points', Some err)
        | (points', None) =>
            getPointsLoop rest r
              (if (r =? "-")%char then Some (String r EmptyString) else None)
              points'
        end
      else
        match lastIndex with
        | None => getPointsLoop rest r (Some (String r EmptyString)) points
        | Some tok => getPointsLoop rest r (Some (tok ++ String r EmptyString)) points
        end
  end.

(** [PathCursor.GetPoints]: clears [c.points] and reads the numbers. *)
Definition GetPoints (dataPoints : string) : list F64 * option PErr :=
  getPointsLoop dataPoints " "%char None [].

End Tokenizer.

(** The tokenizer as the spec words it: a token character is a digit, '.',
    'e', or a '-' immediately following 'e'; a token is a maximal run of token
    characters, where a '-' in any other position also starts a token. *)
Definition tokenChar (prev c : ascii) : bool :=
  isNumber c || (c =? ".")%char || (c =? "e")%char
  || ((c =? "-")%char && (prev =? "e")%char).

(** [takeRun prev s]: the maximal prefix of token characters of [s] (the
    character before [s] being [prev]) and the remaining input. *)
Fixpoint takeRun (prev : ascii) (s : string) : string * string :=
  match s with
  | EmptyString => (EmptyString, EmptyString)
  | String c rest =>
      if tokenChar prev c then
        let (run, rest') := takeRun c rest in (String c run, rest')
      else (EmptyString, s)
  end.

Fixpoint lastChar (prev : ascii) (s : string) : ascii :=
  match s with
  | EmptyString => prev
  | String c rest => lastChar c rest
  end.

Fixpoint specTokens (fuel : nat) (prev : ascii) (s : string) : list string :=
  match fuel with
  | O => []
  | S fuel' =>
      match s with
      | EmptyString => []
      | String c rest =>
          if tokenChar prev c || (c =? "-")%char then
            let (run, rest') := takeRun c rest in
            String c run :: specTokens fuel' (lastChar c run) rest'
          else specTokens fuel' c rest
      end
  end.

Definition tokens (s : string) : list string := specTokens (length s) " "%char s.

Section ReadTokens.

Variable ParseFloat : string -> F64 * option PErr.

(** Reading the tokens in order; the first parse error ends the call. *)
Fixpoint readTokens (toks : list string) (points : list F64)
  : list F64 * option PErr :=
  match toks with
  | [] => (points, None)
  | t :: ts =>
      match ReadFloat ParseFloat t points with
      | (p, Some err) => (p, Some err)
      | (p, None) => readTokens ts p
      end
  end.

End ReadTokens.

(* ------------------------------------------------------------------ *)
(** ** A decimal model of [strconv.ParseFloat]

    Go's documented behaviour for decimal input: optional sign, digits with an
    optional fraction, an optional exponent; the case-insensitive names
    "NaN", "Inf" and "Infinity" (the latter two optionally signed); a value
    beyond the largest float64 gives +-Inf with [ErrRange].  Values are exact
    (no rounding); hexadecimal mantissas are not modelled (syntax error). *)

Definition lowerAscii (c : ascii) : ascii :=
  let n := nat_of_ascii c in
  if (65 <=? n)%nat && (n <=? 90)%nat then ascii_of_nat (n + 32) else c.

Fixpoint lowerString (s : string) : string :=
  match s with
  | EmptyString => EmptyString
  | String c r => String (lowerAscii c) (lowerString r)
  end.

Fixpoint digitsPrefix (s : string) : list Z * string :=
  match s with
  | String c r =>
      if isNumber c then
        let (ds, rest) := digitsPrefix r in
        ((Z.of_nat (nat_of_ascii c) - 48)%Z :: ds, rest)
      else ([], s)
  | EmptyString => ([], EmptyString)
  end.

Definition digitsValue (ds : list Z) : Z :=
  fold_left (fun acc d => (acc * 10 + d)%Z) ds 0%Z.

Definition splitSign (s : string) : bool * string :=
  match s with
  | String c r =>
      if (c =? "-")%char then (true, r)
      else if (c =? "+")%char then (false, r) else (false, s)
  | EmptyString => (false, EmptyString)
  end.

Definition parseExponent (s : string) : option Z :=
  match s with
  | EmptyString => Some 0%Z
  | String c r =>
      if (lowerAscii c =? "e")%char then
        let (neg, r1) := splitSign r in
        match digitsPrefix r1 with
        | ([], _) => None
        | (ds, EmptyString) =>
            Some (if neg then (- digitsValue ds)%Z else digitsValue ds)
        | _ => None
        end
      else None
  end.

(** The largest finite float64 plus half an ulp: from there on the value
    rounds to infinity. *)
Definition f64Overflow : Q := inject_Z (2 ^ 1024 - 2 ^ 970)%Z.

Definition parseDecimal (s : string) : F64 * option PErr :=
  let (neg, s1) := splitSign s in
  let (ip, s2) := digitsPrefix s1 in
  let (fp, s3) :=
    match s2 with
    | String c r => if (c =? ".")%char then digitsPrefix r else ([], s2)
    | EmptyString => ([], EmptyString)
    end in
  match (ip ++ fp)%list, parseExponent s3 with
  | [], _ | _, None => (Fin 0, Some ErrSyntax)
  | ds, Some e =>
      let mag := (inject_Z (digitsValue ds) * Qpower 10 (e - Z.of_nat (List.length fp)))%Q in
      if Qle_bool f64Overflow mag then
        (if neg then NInf else PInf, Some ErrRange)
      else (Fin (if neg then - mag else mag)%Q, None)
  end.

Definition parseFloat64 (s : string) : F64 * option PErr :=
  let l := lowerString s in
  if (l =? "nan")%string then (NaN, None)
  else if (l =? "inf")%string || (l =? "+inf")%string
          || (l =? "infinity")%string || (l =? "+infinity")%string
  then (PInf, None)
  else if (l =? "-inf")%string || (l =? "-infinity")%string then (NInf, None)
  else parseDecimal s.

(* ------------------------------------------------------------------ *)
(** ** Gradient fractions (svgd.go: readFraction and the gradient attributes) *)

(** [unicode.IsSpace] on ASCII. *)
Definition isSpace (c : ascii) : bool :=
  let n := nat_of_ascii c in (n =? 32)%nat || ((9 <=? n)%nat && (n <=? 13)%nat).

Fixpoint dropSpaces (l : list ascii) : list ascii :=
  match l with
  | c :: r => if isSpace c then dropSpaces r else l
  | [] => []
  end.

(** [strings.TrimSpace]. *)
Definition TrimSpace (s : string) : string :=
  string_of_list_ascii
    (rev (dropSpaces (rev (dropSpaces (list_ascii_of_string s))))).

(** [strings.HasSuffix(v, "%")] and [strings.TrimSuffix(v, "%")]. *)
Definition HasPercentSuffix (s : string) : bool :=
  match rev (list_ascii_of_string s) with
  | c :: _ => (c =? "%")%char
  | [] => false
  end.

Definition TrimPercentSuffix (s : string) : string :=
  match rev (list_ascii_of_string s) with
  | c :: r => if (c =? "%")%char then string_of_list_ascii (rev r) else s
  | [] => s
  end.

(** Go's array element assignment [a[i] = v] on an in-range index. *)
Fixpoint setNth {A : Type} (i : nat) (v : A) (l : list A) : list A :=
  match l, i with
  | [], _ => []
  | _ :: r, O => v :: r
  | x :: r, S i' => x :: setNth i' v r
  end.

(** The clamping done by [readFraction]. *)
Definition clampFraction (f : F64) : F64 :=
  if f64_gt f (Fin 1) then Fin 1
  else if f64_lt f (Fin 0) then Fin 0
  else f.

Section Fractions.

Variable ParseFloat : string -> F64 * option PErr.

(** [readFraction]. *)
Definition readFraction (v0 : string) : F64 * option PErr :=
  let v := TrimSpace v0 in
  let '(d, v) :=
    if HasPercentSuffix v then (Fin 100, TrimPercentSuffix v) else (Fin 1, v) in
  let '(f, err) := ParseFloat v in
  (clampFraction (f64_div f d), err).

(** The value [readFraction] hands to [ParseFloat]. *)
Definition fractionText (v0 : string) : string :=
  let v := TrimSpace v0 in
  if HasPercentSuffix v then TrimPercentSuffix v else v.

Definition fractionDivisor (v0 : string) : F64 :=
  if HasPercentSuffix (TrimSpace v0) then Fin 100 else Fin 1.

(** One attribute of a [linearGradient] element (ReadIcon): the effect on
    [grad.points] and the error.  "id" registers the gradient; the other
    attributes go to [ReadGradAttr], which leaves the points alone and
    returns nil. *)
Definition linearGradAttr (name value : string) (points : list F64)
  : list F64 * option PErr :=
  let set i := let (f, err) := readFraction value in (setNth i f points, err) in
  if (name =? "x1")%string then set 0%nat
  else if (name =? "y1")%string then set 1%nat
  else if (name =? "x2")%string then set 2%nat
  else if (name =? "y2")%string then set 3%nat
  else (points, None).

(** One attribute of a [radialGradient] element; the booleans are
    [setFx] and [setFy]. *)
Definition radialGradAttr (name value : string)
  (st : list F64 * bool * bool) : list F64 * bool * bool * option PErr :=
  let '(points, setFx, setFy) := st in
  let set i := let (f, err) := readFraction value in (setNth i f points, err) in
  if (name =? "r")%string then
    let (p, e) := set 4%nat in (p, setFx, setFy, e)
  else if (name =? "cx")%string then
    let (p, e) := set 0%nat in (p, setFx, setFy, e)
  else if (name =? "cy")%string then
    let (p, e) := set 1%nat in (p, setFx, setFy, e)
  else if (name =? "fx")%string then
    let (p, e) := set 2%nat in (p, true, setFy, e)
  else if (name =? "fy")%string then
    let (p, e) := set 3%nat in (p, setFx, true, e)
  else (points, setFx, setFy, None).

(** The attribute loop of a [radialGradient] element, stopping at the first
    error, followed by the defaults [fx := cx], [fy := cy]. *)
Fixpoint radialGradAttrs (attrs : list (string * string))
  (st : list F64 * bool * bool) : list F64 * option PErr :=
  match attrs with
  | [] =>
      let '(points, setFx, setFy) := st in
      let points := if setFx then points else setNth 2 (nth 0 points (Fin 0)) points in
      let points := if setFy then points else setNth 3 (nth 1 points (Fin 0)) points in
      (points, None)
  | (n, v) :: rest =>
      match radialGradAttr n v st with
      | (p, _, _, Some err) => (p, Some err)
      | (p, fx, fy, None) => radialGradAttrs rest (p, fx, fy)
      end
  end.

Fixpoint linearGradAttrs (attrs : list (string * string)) (points : list F64)
  : list F64 * option PErr :=
  match attrs with
  | [] => (points, None)
  | (n, v) :: rest =>
      match linearGradAttr n v points with
      | (p, Some err) => (p, Some err)
      | (p, None) => linearGradAttrs rest p
      end
  end.

(** The stop colour parser [ParseSVGColor] (its value and whether it
    returned an error); it is not involved in the numeric attributes. *)
Variable ColorT : Type.
Variable ParseSVGColor : string -> ColorT * bool.

Record ParsedStop : Type := mkParsedStop {
  pOffset : F64;
  pColor : option ColorT;
  pOpacity : F64
}.

Inductive StopErr : Type := StopNumErr (e : PErr) | StopColorErr.

(** One attribute of a [stop] element inside a gradient (ReadIcon). *)
Definition stopAttr (name value : string) (st : ParsedStop)
  : ParsedStop * option StopErr :=
  if (name =? "offset")%string then
    let (f, err) := readFraction value in
    (mkParsedStop f (pColor st) (pOpacity st), option_map StopNumErr err)
  else if (name =? "stop-color")%string then
    let (c, bad) := ParseSVGColor value in
    (mkParsedStop (pOffset st) (Some c) (pOpacity st),
     if bad then Some StopColorErr else None)
  else if (name =? "stop-opacity")%string then
    let (f, err) := ParseFloat value in
    (mkParsedStop (pOffset st) (pColor st) f, option_map StopNumErr err)
  else (st, None).

End Fractions.

Arguments mkParsedStop {ColorT}.
Arguments pOffset {ColorT}.
Arguments pColor {ColorT}.
Arguments pOpacity {ColorT}.
Arguments stopAttr ParseFloat {ColorT} ParseSVGColor.

(** The default points of the two gradient kinds (ReadIcon). *)
Definition linearDefaultPoints : list F64 := [Fin 0; Fin 0; Fin 1; Fin 0; Fin 0].
Definition radialDefaultPoints : list F64 :=
  [Fin (1#2); Fin (1#2); Fin (1#2); Fin (1#2); Fin (1#2)].

(* ------------------------------------------------------------------ *)
(** ** The path compiler (svgp.go: PathCursor) *)

(** Commands sent to the rasterx path, in 26.6 fixed point. *)
Inductive PathCmd : Type :=
| Start (x y : Z)
| Line (x y : Z)
| QuadBezier (bx by' cx cy : Z)
| CubeBezier (bx by' cx cy dx dy : Z)
| Stop (closed : bool).

Inductive ErrorMode : Type := IgnoreErrorMode | WarnErrorMode | StrictErrorMode.

Inductive PathErr : Type :=
| PathNumErr (e : PErr)      (* the error of strconv.ParseFloat *)
| ParamMismatch              (* paramMismatchError *)
| CommandUnknown.            (* commandUnknownError *)

Record PathCursor : Type := mkCursor {
  Path : list PathCmd;
  placeX : F64; placeY : F64;
  cntlPtX : F64; cntlPtY : F64;
  pathStartX : Z; pathStartY : Z;
  points : list F64;
  lastKey : ascii;
  errorMode : ErrorMode;
  inPath : bool
}.

Definition set_Path (p : list PathCmd) (c : PathCursor) : PathCursor :=
  mkCursor p (placeX c) (placeY c) (cntlPtX c) (cntlPtY c) (pathStartX c)
    (pathStartY c) (points c) (lastKey c) (errorMode c) (inPath c).
Definition set_place (x y : F64) (c : PathCursor) : PathCursor :=
  mkCursor (Path c) x y (cntlPtX c) (cntlPtY c) (pathStartX c)
    (pathStartY c) (points c) (lastKey c) (errorMode c) (inPath c).
Definition set_cntlPt (x y : F64) (c : PathCursor) : PathCursor :=
  mkCursor (Path c) (placeX c) (placeY c) x y (pathStartX c)
    (pathStartY c) (points c) (lastKey c) (errorMode c) (inPath c).
Definition set_pathStart (x y : Z) (c : PathCursor) : PathCursor :=
  mkCursor (Path c) (placeX c) (placeY c) (cntlPtX c) (cntlPtY c) x y
    (points c) (lastKey c) (errorMode c) (inPath c).
Definition set_points (p : list F64) (c : PathCursor) : PathCursor :=
  mkCursor (Path c) (placeX c) (placeY c) (cntlPtX c) (cntlPtY c) (pathStartX c)
    (pathStartY c) p (lastKey c) (errorMode c) (inPath c).
Definition set_lastKey (k : ascii) (c : PathCursor) : PathCursor :=
  mkCursor (Path c) (placeX c) (placeY c) (cntlPtX c) (cntlPtY c) (pathStartX c)
    (pathStartY c) (points c) k (errorMode c) (inPath c).
Definition set_inPath (b : bool) (c : PathCursor) : PathCursor :=
  mkCursor (Path c) (placeX c) (placeY c) (cntlPtX c) (cntlPtY c) (pathStartX c)
    (pathStartY c) (points c) (lastKey c) (errorMode c) b.

(** A state and error monad over the cursor: the methods of [PathCursor]
    mutate the cursor and may return an error. *)
Definition CM (A : Type) : Type := PathCursor -> PathCursor * (A + PathErr).

Definition ret {A : Type} (a : A) : CM A := fun c => (c, inl a).
Definition throw {A : Type} (e : PathErr) : CM A := fun c => (c, inr e).
Definition bind {A B : Type} (m : CM A) (k : A -> CM B) : CM B :=
  fun c => match m c with
           | (c', inl a) => k a c'
           | (c', inr e) => (c', inr e)
           end.
Definition get : CM PathCursor := fun c => (c, inl c).
Definition modify (f : PathCursor -> PathCursor) : CM unit := fun c => (f c, inl tt).

Notation "x <- m ;; k" := (bind m (fun x => k))
  (at level 61, m at next level, right associativity).
Notation "m ;;; k" := (bind m (fun _ => k)) (at level 61, right associativity).

(** [c.Path.Start(...)], [c.Path.Line(...)], ...: append to the path. *)
Definition emit (cmds : list PathCmd) : CM unit :=
  modify (fun c => set_Path (Path c ++ cmds) c).

(** [reflect]. *)
Definition reflectPt (px py rx ry : F64) : F64 * F64 :=
  (f64_sub (f64_mul px (Fin 2)) rx, f64_sub (f64_mul py (Fin 2)) ry).

(** [valsToAbs]: running sums starting at [last]. *)
Fixpoint valsToAbs (last : F64) (l : list F64) : list F64 :=
  match l with
  | [] => []
  | p :: r => let last' := f64_add last p in last' :: valsToAbs last' r
  end.

(** The inner loop of [pointsToAbs] on one set: [lastX] is added to the x
    coordinates and [lastY] to the y coordinates. *)
Fixpoint addPairs (lastX lastY : F64) (l : list F64) : list F64 :=
  match l with
  | a :: b :: r => f64_add a lastX :: f64_add b lastY :: addPairs lastX lastY r
  | [a] => [f64_add a lastX]
  | [] => []
  end.

(** [pointsToAbs(sz)] for an even set size: each set is shifted by the last
    point of the previous (already shifted) set, the first one by the pen. *)
Fixpoint pointsToAbsSets (fuel sz : nat) (lastX lastY : F64) (l : list F64)
  : list F64 :=
  match fuel with
  | O => l
  | S fuel' =>
      match l with
      | [] => []
      | _ =>
          let set := addPairs lastX lastY (firstn sz l) in
          (set ++ pointsToAbsSets fuel' sz (nth (sz - 2) set NaN)
                   (nth (sz - 1) set NaN) (skipn sz l))%list
      end
  end.

Definition pointsToAbs (sz : nat) : CM unit :=
  modify (fun c =>
    set_points (pointsToAbsSets (List.length (points c)) sz (placeX c) (placeY c)
                  (points c)) c).

(** [hasSetsOrMore(sz, rel)]. *)
Definition hasSetsOrMore (sz : nat) (rel : bool) : CM bool :=
  c <- get ;;
  let n := List.length (points c) in
  if (sz <=? n)%nat && (n mod sz =? 0)%nat then
    (if rel then pointsToAbs sz else ret tt) ;;; ret true
  else ret false.

Definition pt (x y : F64) : Z * Z := (toFixed x, toFixed y).

Fixpoint pairsToLines (l : list F64) : list PathCmd :=
  match l with
  | x :: y :: r => Line (toFixed x) (toFixed y) :: pairsToLines r
  | _ => []
  end.

Fixpoint quadsOf (l : list F64) : list PathCmd :=
  match l with
  | a :: b :: c :: d :: r =>
      QuadBezier (toFixed a) (toFixed b) (toFixed c) (toFixed d) :: quadsOf r
  | _ => []
  end.

Fixpoint cubesOf (l : list F64) : list PathCmd :=
  match l with
  | a :: b :: c :: d :: e :: f :: r =>
      CubeBezier (toFixed a) (toFixed b) (toFixed c) (toFixed d) (toFixed e)
        (toFixed f) :: cubesOf r
  | _ => []
  end.

Definition nthPt (i : nat) (l : list F64) : F64 := nth i l NaN.

Definition isQuadKey (k : ascii) : bool :=
  (k =? "q")%char || (k =? "Q")%char || (k =? "T")%char || (k =? "t")%char.
Definition isCubeKey (k : ascii) : bool :=
  (k =? "c")%char || (k =? "C")%char || (k =? "s")%char || (k =? "S")%char.

(** The loop of the T/t case: one smooth quadratic per pair. *)
Fixpoint smoothQuads (k : ascii) (l : list F64) : CM unit :=
  match l with
  | x :: y :: r =>
      c <- get ;;
      let '(cx, cy) :=
        if isQuadKey (lastKey c) then reflectPt (placeX c) (placeY c) (cntlPtX c) (cntlPtY c)
        else (placeX c, placeY c) in
      modify (set_cntlPt cx cy) ;;;
      emit [QuadBezier (toFixed cx) (toFixed cy) (toFixed x) (toFixed y)] ;;;
      modify (set_lastKey k) ;;;
      modify (set_place x y) ;;;
      smoothQuads k r
  | _ => ret tt
  end.

(** The loop of the S/s case: one smooth cubic per set of four. *)
Fixpoint smoothCubes (k : ascii) (l : list F64) : CM unit :=
  match l with
  | x2 :: y2 :: x3 :: y3 :: r =>
      c <- get ;;
      let '(cx, cy) :=
        if isCubeKey (lastKey c) then reflectPt (placeX c) (placeY c) (cntlPtX c) (cntlPtY c)
        else (placeX c, placeY c) in
      emit [CubeBezier (toFixed cx) (toFixed cy) (toFixed x2) (toFixed y2)
              (toFixed x3) (toFixed y3)] ;;;
      modify (set_lastKey k) ;;;
      modify (set_cntlPt x2 y2) ;;;
      modify (set_place x3 y3) ;;;
      smoothCubes k r
  | _ => ret tt
  end.

Definition isLetter (v : ascii) : bool :=
  let n := nat_of_ascii v in
  ((65 <=? n)%nat && (n <=? 90)%nat) || ((97 <=? n)%nat && (n <=? 122)%nat).

Definition isStrict (m : ErrorMode) : bool :=
  match m with StrictErrorMode => true | _ => false end.

Section PathCompiler.

Variable ParseFloat : string -> F64 * option PErr.

(** [AddArcFromA]: the cubic Bézier approximation of an SVG arc from the
    pen [(placeX, placeY)] with the seven arc parameters (radii, rotation,
    flags, absolute end point).  It comes from [FindEllipseCenter] and
    [AddArcFromAC] (trigonometry, see the [Arc] module); here it is a
    parameter.  [AddArcFromAC] leaves the pen at the end point (its last
    Bézier ends exactly at [points[5], points[6]]). *)
Variable AddArcFromA : F64 -> F64 -> list F64 -> list PathCmd.

(** The loop of the A/a case, one arc per set of seven parameters; for
    'a' the end point is made absolute first. *)
Fixpoint arcsOf (k : ascii) (l : list F64) : CM unit :=
  match l with
  | p0 :: p1 :: p2 :: p3 :: p4 :: p5 :: p6 :: r =>
      c <- get ;;
      let '(ex, ey) :=
        if (k =? "a")%char then (f64_add p5 (placeX c), f64_add p6 (placeY c))
        else (p5, p6) in
      emit (AddArcFromA (placeX c) (placeY c) [p0; p1; p2; p3; p4; ex; ey]) ;;;
      modify (set_place ex ey) ;;;
      arcsOf k r
  | _ => ret tt
  end.

(** [PathCursor.addSeg] on the segment [String k rest]. *)
Definition addSeg (k : ascii) (rest : string) : CM unit :=
  let '(pts, err) := GetPoints ParseFloat rest in
  modify (set_points pts) ;;;
  match err with
  | Some e => throw (PathNumErr e)
  | None =>
    let l := List.length pts in
    (if (k =? "z")%char || (k =? "Z")%char then
       if negb (l =? 0)%nat then throw ParamMismatch
       else
         c <- get ;;
         if inPath c then emit [Stop true] ;;; modify (set_inPath false)
         else ret tt
     else if (k =? "m")%char || (k =? "M")%char then
       let rel := (k =? "m")%char in
       (if rel then modify (set_place (Fin 0) (Fin 0)) else ret tt) ;;;
       ok <- hasSetsOrMore 2 rel ;;
       if negb ok then throw ParamMismatch
       else
         c <- get ;;
         let p := points c in
         modify (set_pathStart (toFixed (nthPt 0 p)) (toFixed (nthPt 1 p))) ;;;
         modify (set_inPath true) ;;;
         emit [Start (toFixed (nthPt 0 p)) (toFixed (nthPt 1 p))] ;;;
         emit (pairsToLines (skipn 2 p)) ;;;
         modify (set_place (nthPt (l - 2) p) (nthPt (l - 1) p))
     else if (k =? "l")%char || (k =? "L")%char then
       ok <- hasSetsOrMore 2 (k =? "l")%char ;;
       if negb ok then throw ParamMismatch
       else
         c <- get ;;
         let p := points c in
         emit (pairsToLines p) ;;;
         modify (set_place (nthPt (l - 2) p) (nthPt (l - 1) p))
     else if (k =? "v")%char || (k =? "V")%char then
       (if (k =? "v")%char
        then modify (fun c => set_points (valsToAbs (placeY c) (points c)) c)
        else ret tt) ;;;
       ok <- hasSetsOrMore 1 false ;;
       if negb ok then throw ParamMismatch
       else
         c <- get ;;
         let p := points c in
         emit (map (fun y => Line (toFixed (placeX c)) (toFixed y)) p) ;;;
         modify (set_place (placeX c) (nthPt (l - 1) p))
     else if (k =? "h")%char || (k =? "H")%char then
       (if (k =? "h")%char
        then modify (fun c => set_points (valsToAbs (placeX c) (points c)) c)
        else ret tt) ;;;
       ok <- hasSetsOrMore 1 false ;;
       if negb ok then throw ParamMismatch
       else
         c <- get ;;
         let p := points c in
         emit (map (fun x => Line (toFixed x) (toFixed (placeY c))) p) ;;;
         modify (set_place (nthPt (l - 1) p) (placeY c))
     else if (k =? "q")%char || (k =? "Q")%char then
       ok <- hasSetsOrMore 4 (k =? "q")%char ;;
       if negb ok then throw ParamMismatch
       else
         c <- get ;;
         let p := points c in
         emit (quadsOf p) ;;;
         modify (set_cntlPt (nthPt (l - 4) p) (nthPt (l - 3) p)) ;;;
         modify (set_place (nthPt (l - 2) p) (nthPt (l - 1) p))
     else if (k =? "t")%char || (k =? "T")%char then
       ok <- hasSetsOrMore 2 (k =? "t")%char ;;
       if negb ok then throw ParamMismatch
       else
         c <- get ;;
         smoothQuads k (points c)
     else if (k =? "c")%char || (k =? "C")%char then
       ok <- hasSetsOrMore 6 (k =? "c")%char ;;
       if negb ok then throw ParamMismatch
       else
         c <- get ;;
         let p := points c in
         emit (cubesOf p) ;;;
         modify (set_cntlPt (nthPt (l - 4) p) (nthPt (l - 3) p)) ;;;
         modify (set_place (nthPt (l - 2) p) (nthPt (l - 1) p))
     else if (k =? "s")%char || (k =? "S")%char then
       ok <- hasSetsOrMore 4 (k =? "s")%char ;;
       if negb ok then throw ParamMismatch
       else
         c <- get ;;
         smoothCubes k (points c)
     else if (k =? "a")%char || (k =? "A")%char then
       ok <- hasSetsOrMore 7 false ;;
       if negb ok then throw ParamMismatch
       else
         c <- get ;;
         arcsOf k (points c)
     else
       c <- get ;;
       if isStrict (errorMode c) then throw CommandUnknown else ret tt) ;;;
    modify (set_lastKey k)
  end.

(** [PathCursor.init]. *)
Definition initCursor (c : PathCursor) : PathCursor :=
  mkCursor [] (Fin 0) (Fin 0) (cntlPtX c) (cntlPtY c) (pathStartX c)
    (pathStartY c) [] " "%char (errorMode c) false.

(** The loop of [CompilePath]: a letter other than 'e' ends the open
    segment (handed to [addSeg]) and opens the next one. *)
Fixpoint compileLoop (s : string) (lastIndex : option (ascii * string)) : CM unit :=
  match s with
  | EmptyString =>
      match lastIndex with
      | Some (k, r) => addSeg k r
      | None => ret tt
      end
  | String v rest =>
      if isLetter v && negb (v =? "e")%char then
        (match lastIndex with
         | Some (k, r) => addSeg k r
         | None => ret tt
         end) ;;;
        compileLoop rest (Some (v, EmptyString))
      else
        compileLoop rest
          (option_map (fun '(k, r) => (k, r ++ String v EmptyString)%string) lastIndex)
  end.

(** [PathCursor.CompilePath]. *)
Definition CompilePath (svgPath : string) : CM unit :=
  modify initCursor ;;; compileLoop svgPath None.

(** The segments [CompilePath] hands to [addSeg], in order. *)
Fixpoint segLoop (s : string) (lastIndex : option (ascii * string))
  : list (ascii * string) :=
  match s with
  | EmptyString =>
      match lastIndex with
      | Some seg => [seg]
      | None => []
      end
  | String v rest =>
      if isLetter v && negb (v =? "e")%char then
        match lastIndex with
        | Some seg => seg :: segLoop rest (Some (v, EmptyString))
        | None => segLoop rest (Some (v, EmptyString))
        end
      else
        segLoop rest
          (option_map (fun '(k, r) => (k, r ++ String v EmptyString)%string) lastIndex)
  end.

Definition segments (s : string) : list (ascii * string) := segLoop s None.

Fixpoint runSegs (segs : list (ascii * string)) : CM unit :=
  match segs with
  | [] => ret tt
  | (k, r) :: rest => addSeg k r ;;; runSegs rest
  end.

End PathCompiler.

Definition cursor0 : PathCursor :=
  mkCursor [] (Fin 0) (Fin 0) (Fin 0) (Fin 0) 0%Z 0%Z [] " "%char IgnoreErrorMode false.

(** For stating properties of [addSeg]: the size of a parameter set of
    each command letter, the [sz] of its [hasSetsOrMore(sz, rel)] test
    ([None] for 'z', 'Z' and the letters that are not commands). *)
Definition paramSetSize (k : ascii) : option nat :=
  if (k =? "m")%char || (k =? "M")%char || (k =? "l")%char || (k =? "L")%char
     || (k =? "t")%char || (k =? "T")%char then Some 2%nat
  else if (k =? "v")%char || (k =? "V")%char || (k =? "h")%char || (k =? "H")%char
  then Some 1%nat
  else if (k =? "q")%char || (k =? "Q")%char || (k =? "s")%char || (k =? "S")%char
  then Some 4%nat
  else if (k =? "c")%char || (k =? "C")%char then Some 6%nat
  else if (k =? "a")%char || (k =? "A")%char then Some 7%nat
  else None.

(* ------------------------------------------------------------------ *)
(** * Colors and gradients (part_000, svgd.go)

    Gradient arithmetic is modelled on exact rationals: [t], offsets and
    opacities are finite float64 values, and the rounding of the float
    operations is not modelled. *)

(** Go's [color.Color] values as they occur here: [color.NRGBA]
    (non-premultiplied) and [color.RGBA] (premultiplied), 8-bit channels. *)
Inductive Color :=
| NRGBA (r g b a : Z)
| RGBA (r g b a : Z).

(** [v |= v << 8] on an 8-bit channel. *)
Definition widen8 (v : Z) : Z := Z.lor v (Z.shiftl v 8).

(** The [RGBA()] method of [color.RGBA] and [color.NRGBA]: 16-bit,
    alpha-premultiplied channels. *)
Definition RGBA_of (c : Color) : Z * Z * Z * Z :=
  match c with
  | RGBA r g b a => (widen8 r, widen8 g, widen8 b, widen8 a)
  | NRGBA r g b a =>
      (widen8 r * a / 255, widen8 g * a / 255, widen8 b * a / 255, widen8 a)%Z
  end.

(** [uint8(v)] of an unsigned integer: its low byte. *)
Definition u8 (v : Z) : Z := Z.land v 255.

(** [uint8(x)] of a float64: truncation toward zero (exact for the values
    in [0, 256) that occur here). *)
Definition u8f (x : Q) : Z := u8 (Qtrunc x).

Definition Qltb (x y : Q) : bool := negb (Qle_bool y x).

(** [ApplyOpacity] (svgd.go). *)
Definition ApplyOpacity (c : Color) (opacity : Q) : Color :=
  let '(r, g, b, _) := RGBA_of c in
  NRGBA (u8 r) (u8 g) (u8 b) (u8f (opacity * 255)).

Record GradStop := mkGradStop {
  stopColor : Color;
  offset : Q;
  opacity : Q
}.

Inductive SpreadMethod := PadSpread | ReflectSpread | RepeatSpread.
Inductive GradientUnits := ObjectBoundingBox | UserSpaceOnUse.

(** [Gradient]; [gpoints] is the [points] array, [matrix2D] the
    coefficients (A, B, C, D, E, F) and [bounds] (X, Y, W, H). *)
Record Gradient := mkGradient {
  gpoints : list Q;
  stops : list GradStop;
  bounds : Q * Q * Q * Q;
  matrix2D : Q * Q * Q * Q * Q * Q;
  spread : SpreadMethod;
  units : GradientUnits;
  isRadial : bool
}.

Definition set_stops (g : Gradient) (l : list GradStop) : Gradient :=
  mkGradient (gpoints g) l (bounds g) (matrix2D g) (spread g) (units g) (isRadial g).

(** Index default for [g.stops[i]] (Go panics out of range; the results
    below only index in range). *)
Definition noStop : GradStop := mkGradStop (RGBA 0 0 0 0) 0 0.

(** [math.Mod] on finite values: the remainder of the truncated quotient. *)
Definition fmod (x y : Q) : Q := x - y * inject_Z (Qtrunc (x / y)).

(** [for place != len(l) && cond(l[place]) { place++ }] from [place = 0]. *)
Fixpoint advanceWhile {A : Type} (cond : A -> bool) (l : list A) : nat :=
  match l with
  | [] => O
  | x :: l' => if cond x then S (advanceWhile cond l') else O
  end.

(** [Gradient.blendStops]. *)
Definition blendStops (t opacity' : Q) (s1 s2 : GradStop) (flip : bool) : Color :=
  let '(s1off, t) :=
    if Qltb (offset s2) (offset s1) && negb flip
    then (offset s1 - 1, if Qltb 1 t then t - 1 else t)
    else (offset s1, t) in
  if Qeq_bool (offset s2) s1off then ApplyOpacity (stopColor s2) (opacity s2)
  else
    let t := if flip then 1 - t else t in
    let tp := (t - s1off) / (offset s2 - s1off) in
    let '(r1, g1, b1, _) := RGBA_of (stopColor s1) in
    let '(r2, g2, b2, _) := RGBA_of (stopColor s2) in
    ApplyOpacity
      (RGBA (u8f ((inject_Z r1 * (1 - tp) + inject_Z r2 * tp) / 256))
            (u8f ((inject_Z g1 * (1 - tp) + inject_Z g2 * tp) / 256))
            (u8f ((inject_Z b1 * (1 - tp) + inject_Z b2 * tp) / 256))
            255)
      ((opacity s1 * (1 - tp) + opacity s2 * tp) * opacity').

(** The part of [Gradient.tColor] after [mod] (here [tmod]) is computed: locate [tmod]
    among the stops and pick or blend the colors by spread method. *)
Definition spreadColor (g : Gradient) (tmod opacity' : Q) : Color :=
  let d := List.length (stops g) in
  let st i := nth i (stops g) noStop in
  let place := advanceWhile (fun s => Qltb (offset s) tmod) (stops g) in
  match spread g with
  | RepeatSpread =>
      let '(s1, s2) :=
        if (place =? 0)%nat || (place =? d)%nat then (st (d - 1)%nat, st 0%nat)
        else (st (place - 1)%nat, st place) in
      blendStops tmod opacity' s1 s2 false
  | ReflectSpread =>
      if (place =? 0)%nat then
        ApplyOpacity (stopColor (st 0%nat)) (opacity (st 0%nat) * opacity')
      else if (place =? d)%nat then
        (* the reverse walk: [g.stops[d*2-place-1]] runs through the stops
           backwards as [place] advances from [d] *)
        let place :=
          (d + advanceWhile (fun s => Qltb (1 - offset s) (tmod - 1)) (rev (stops g)))%nat in
        if (place =? d)%nat then
          ApplyOpacity (stopColor (st (d - 1)%nat)) (opacity (st (d - 1)%nat) * opacity')
        else if (place =? d * 2)%nat then
          ApplyOpacity (stopColor (st 0%nat)) (opacity (st 0%nat) * opacity')
        else
          blendStops (tmod - 1) opacity' (st (d * 2 - place)%nat)
                     (st (d * 2 - place - 1)%nat) true
      else blendStops tmod opacity' (st (place - 1)%nat) (st place) false
  | PadSpread =>
      if (place =? 0)%nat then
        ApplyOpacity (stopColor (st 0%nat)) (opacity (st 0%nat) * opacity')
      else if (place =? d)%nat then
        ApplyOpacity (stopColor (st (d - 1)%nat)) (opacity (st (d - 1)%nat) * opacity')
      else blendStops tmod opacity' (st (place - 1)%nat) (st place) false
  end.

Definition isPad (g : Gradient) : bool :=
  match spread g with PadSpread => true | _ => false end.

(** [Gradient.tColor]. *)
Definition tColor (g : Gradient) (t opacity' : Q) : Color :=
  let d := List.length (stops g) in
  if Qle_bool 1 t && isPad g then
    let s := nth (d - 1) (stops g) noStop in
    ApplyOpacity (stopColor s) (opacity s * opacity')
  else if Qle_bool t 0 && isPad g then
    ApplyOpacity (stopColor (nth 0 (stops g) noStop))
                 (opacity (nth 0 (stops g) noStop) * opacity')
  else
    let modRange := match spread g with ReflectSpread => 2 | _ => 1 end in
    let tmod := fmod t modRange in
    let tmod := if Qltb tmod 0 then tmod + modRange else tmod in
    spreadColor g tmod opacity'.

(** What [GetColorFunction] returns: a single color, or (at least two
    stops) a color function. *)
Inductive ColorSource (ColorFunc : Type) :=
| SolidColor (c : Color)
| GradientFunc (f : ColorFunc).
Arguments SolidColor {ColorFunc} c.
Arguments GradientFunc {ColorFunc} f.

Section GetColorFunction.
Variable ColorFunc : Type.
(** The case of at least two stops: sort the stops by offset, build the
    inverse gradient transform and the rasterx color function sampling
    [tColor]. *)
Variable gradientColorFunc : Gradient -> Q -> ColorFunc.

(** [Gradient.GetColorFunction]. *)
Definition GetColorFunction (g : Gradient) (opacity' : Q) : ColorSource ColorFunc :=
  match stops g with
  | [] => SolidColor (ApplyOpacity (RGBA 255 0 255 255) opacity')
  | [s] => SolidColor (ApplyOpacity (stopColor s) opacity')
  | _ => GradientFunc (gradientColorFunc g opacity')
  end.
End GetColorFunction.

(** An opaque 8-bit color (alpha 255, channels in range). *)
Definition opaque (c : Color) : Prop :=
  match c with
  | NRGBA r g b a | RGBA r g b a =>
      a = 255%Z /\ (0 <= r < 256)%Z /\ (0 <= g < 256)%Z /\ (0 <= b < 256)%Z
  end.

(* ------------------------------------------------------------------ *)
(** * Matrices and arc centers on real numbers (matrix.go, svgp.go)

    float64 arithmetic with [math.Cos], [math.Sin], [math.Tan] and
    [math.Sqrt] is modelled on the reals, without rounding. *)
Module Geometry.
Import Stdlib.Reals.Reals.
Local Open Scope R_scope.

Record Matrix2D := mkMatrix2D { A : R; B : R; C : R; D : R; E : R; F : R }.

(** [Matrix2D.Mult]. *)
Definition Mult (a b : Matrix2D) : Matrix2D :=
  mkMatrix2D (A a * A b + C a * B b)
             (B a * A b + D a * B b)
             (A a * C b + C a * D b)
             (B a * C b + D a * D b)
             (A a * E b + C a * F b + E a)
             (B a * E b + D a * F b + F a).

Definition Identity : Matrix2D := mkMatrix2D 1 0 0 1 0 0.

(** [Matrix2D.Transform]. *)
Definition Transform (m : Matrix2D) (x1 y1 : R) : R * R :=
  (x1 * A m + y1 * C m + E m, x1 * B m + y1 * D m + F m).

Definition Scale (a : Matrix2D) (x y : R) : Matrix2D :=
  Mult a (mkMatrix2D x 0 0 y 0 0).

Definition SkewY (a : Matrix2D) (theta : R) : Matrix2D :=
  Mult a (mkMatrix2D 1 (tan theta) 0 1 0 0).

Definition SkewX (a : Matrix2D) (theta : R) : Matrix2D :=
  Mult a (mkMatrix2D 1 0 (tan theta) 1 0 0).

(** [Matrix2D.Translate]. *)
Definition Translate (a : Matrix2D) (x y : R) : Matrix2D :=
  mkMatrix2D (A a) (B a) (C a) (D a) (E a + x) (F a + y).

Definition Rotate (a : Matrix2D) (theta : R) : Matrix2D :=
  Mult a (mkMatrix2D (cos theta) (sin theta) (- sin theta) (cos theta) 0 0).

(** The primitive translation matrix of the SVG [translate(x,y)]
    transform (the matrix the specification composes with). *)
Definition translationMatrix (x y : R) : Matrix2D := mkMatrix2D 1 0 0 1 x y.

(** The first part of [FindEllipseCenter]: the chord midpoint
    [(midX, midY)] in the frame where the ellipse is a circle of radius
    [rb]. *)
Definition ellipseMid (ra rb rotX startX startY endX endY : R) : R * R :=
  let cos := cos rotX in
  let sin := sin rotX in
  let nx := endX - startX in
  let ny := endY - startY in
  let nx' := nx * cos + ny * sin in
  let ny' := - nx * sin + ny * cos in
  let nx' := nx' * (rb / ra) in
  (nx' / 2, ny' / 2).


(** [FindEllipseCenter]: the center [(cx, cy)] and the final values of
    the radii [*ra] and [*rb] it updates through its pointer arguments. *)
Definition FindEllipseCenter (ra rb rotX startX startY endX endY : R)
  (sweep smallArc : bool) : R * R * R * R :=
  let cos := cos rotX in
  let sin := sin rotX in
  let '(midX, midY) := ellipseMid ra rb rotX startX startY endX endY in
  let midlenSq := midX * midX + midY * midY in
  let '(ra, rb, hr) :=
    if Rlt_dec (rb * rb) midlenSq then
      let nrb := sqrt midlenSq in
      ((if Req_EM_T ra rb then nrb else ra * nrb / rb), nrb, 0)
    else (ra, rb, sqrt (rb * rb - midlenSq) / sqrt midlenSq) in
  let '(cx, cy) :=
    if (sweep && smallArc) || (negb sweep && negb smallArc)
    then (midX + midY * hr, midY - midX * hr)
    else (midX - midY * hr, midY + midX * hr) in
  let cx := cx * (ra / rb) in
  (cx * cos - cy * sin + startX, cx * sin + cy * cos + startY, ra, rb).
End Geometry.

(* ------------------------------------------------------------------ *)
(** ** Colour strings (svgd.go: ParseSVGColorNum, ParseSVGColor,
    parseColorValue) and the [strconv] integer parsers they call *)

(** The outcome of a Go call that may stop with a run-time panic (an index
    out of range). *)
Inductive Panicking (A : Type) : Type :=
| Normal (a : A)
| RuntimePanic.
Arguments Normal {A} a.
Arguments RuntimePanic {A}.

(** The errors of the icon reader: [paramMismatchError] and the errors of
    [strconv] (by kind). *)
Inductive IconErr : Type := IconParamMismatch | IconNumErr (e : PErr).

(** [strings.Split(s, sep)] for a one-byte separator, on bytes. *)
Fixpoint splitOn (sep : ascii) (l : list ascii) : list (list ascii) :=
  match l with
  | [] => [[]]
  | c :: r =>
      if (c =? sep)%char then [] :: splitOn sep r
      else match splitOn sep r with
           | p :: ps => (c :: p) :: ps
           | [] => [[c]]
           end
  end.

Definition Split (s : string) (sep : ascii) : list string :=
  map string_of_list_ascii (splitOn sep (list_ascii_of_string s)).

Fixpoint stripPrefix (p s : list ascii) : option (list ascii) :=
  match p, s with
  | [], _ => Some s
  | a :: p', b :: s' => if (a =? b)%char then stripPrefix p' s' else None
  | _ :: _, [] => None
  end.

(** [strings.HasPrefix], [strings.TrimPrefix] and [strings.TrimSuffix]. *)
Definition HasPrefix (s prefix : string) : bool :=
  match stripPrefix (list_ascii_of_string prefix) (list_ascii_of_string s) with
  | Some _ => true
  | None => false
  end.

Definition TrimPrefix (s prefix : string) : string :=
  match stripPrefix (list_ascii_of_string prefix) (list_ascii_of_string s) with
  | Some r => string_of_list_ascii r
  | None => s
  end.

Definition TrimSuffix (s suffix : string) : string :=
  match stripPrefix (rev (list_ascii_of_string suffix)) (rev (list_ascii_of_string s)) with
  | Some r => string_of_list_ascii (rev r)
  | None => s
  end.

(** The digit value of a byte in [strconv.ParseUint]: '0'..'9', then the
    letters from 10 on, case-insensitively ([lower(c) = c | 0x20]). *)
Definition digitVal (c : ascii) : option Z :=
  let n := Z.of_nat (nat_of_ascii c) in
  let lc := Z.lor n 32 in
  if ((48 <=? n) && (n <=? 57))%Z then Some (n - 48)%Z
  else if ((97 <=? lc) && (lc <=? 122))%Z then Some (lc - 97 + 10)%Z
  else None.

Definition maxUint64 : Z := (2 ^ 64 - 1)%Z.

(** The digit loop of [strconv.ParseUint].  [n * base] cannot wrap since
    [n < cutoff]; the test [n1 < n] (wrap of [n * base + d]) is covered by
    [n1 > maxVal] on unbounded integers. *)
Fixpoint parseUintLoop (base maxVal cutoff : Z) (l : list ascii) (n : Z)
  : Z * option PErr :=
  match l with
  | [] => (n, None)
  | c :: r =>
      match digitVal c with
      | None => (0%Z, Some ErrSyntax)
      | Some d =>
          if (base <=? d)%Z then (0%Z, Some ErrSyntax)
          else if (cutoff <=? n)%Z then (maxVal, Some ErrRange)
          else
            let n1 := (n * base + d)%Z in
            if (maxVal <? n1)%Z then (maxVal, Some ErrRange)
            else parseUintLoop base maxVal cutoff r n1
      end
  end.

(** [strconv.ParseUint(s, base, bitSize)] for a base in [2, 36] and a
    bit size in [1, 64], the arguments of every call here. *)
Definition ParseUint (s : string) (base bitSize : Z) : Z * option PErr :=
  match s with
  | EmptyString => (0%Z, Some ErrSyntax)
  | _ =>
      parseUintLoop base (2 ^ bitSize - 1)%Z (maxUint64 / base + 1)%Z
        (list_ascii_of_string s) 0%Z
  end.

(** [strconv.ParseInt(s, 10, 0)] on a 64-bit platform. *)
Definition ParseInt10 (s : string) : Z * option PErr :=
  match s with
  | EmptyString => (0%Z, Some ErrSyntax)
  | String c r =>
      let '(neg, u) :=
        if (c =? "+")%char then (false, r)
        else if (c =? "-")%char then (true, r) else (false, s) in
      match ParseUint u 10 64 with
      | (_, Some ErrSyntax) => (0%Z, Some ErrSyntax)
      | (un, _) =>
          if negb neg && (2 ^ 63 <=? un)%Z then ((2 ^ 63 - 1)%Z, Some ErrRange)
          else if neg && (2 ^ 63 <? un)%Z then ((- 2 ^ 63)%Z, Some ErrRange)
          else ((if neg then - un else un)%Z, None)
      end
  end.

(** The digit loop of the fast path of [strconv.Atoi]: [ch -= '0'] on a
    byte, then [ch > 9] rejects the byte. *)
Fixpoint atoiDigits (l : list ascii) (n : Z) : option Z :=
  match l with
  | [] => Some n
  | c :: r =>
      let ch := ((Z.of_nat (nat_of_ascii c) - 48) mod 256)%Z in
      if (9 <? ch)%Z then None else atoiDigits r (n * 10 + ch)%Z
  end.

(** [strconv.Atoi] on a 64-bit platform: the fast path below 19 bytes,
    [ParseInt] otherwise. *)
Definition Atoi (s : string) : Z * option PErr :=
  let len := String.length s in
  if ((0 <? len) && (len <? 19))%nat then
    let '(neg, ds) :=
      match s with
      | String c r =>
          if (c =? "-")%char then (true, r)
          else if (c =? "+")%char then (false, r) else (false, s)
      | EmptyString => (false, s)
      end in
    match list_ascii_of_string ds with
    | [] => (0%Z, Some ErrSyntax)
    | l =>
        match atoiDigits l 0 with
        | Some v => ((if neg then - v else v)%Z, None)
        | None => (0%Z, Some ErrSyntax)
        end
    end
  else ParseInt10 s.

(** Go's 64-bit [int] arithmetic: the result wrapped to [-2^63, 2^63). *)
Definition wrapInt64 (v : Z) : Z := ((v + 2 ^ 63) mod 2 ^ 64 - 2 ^ 63)%Z.

(** [ParseSVGColorNum]: the three channels and the error; a string of
    fewer than three bytes (after the '#') panics. *)
Definition ParseSVGColorNum (colorStr : string)
  : Panicking (Z * Z * Z * option PErr) :=
  let s := list_ascii_of_string (TrimPrefix colorStr "#") in
  let s :=
    if (List.length s =? 6)%nat then Some s
    else match s with
         | c0 :: c1 :: c2 :: _ => Some [c0; c0; c1; c1; c2; c2]
         | _ => None
         end in
  match s with
  | None => RuntimePanic
  | Some s =>
      let part i := string_of_list_ascii (firstn 2 (skipn i s)) in
      match ParseUint (part 0%nat) 16 8 with
      | (_, Some e) => Normal (0%Z, 0%Z, 0%Z, Some e)
      | (r, None) =>
          match ParseUint (part 2%nat) 16 8 with
          | (_, Some e) => Normal (u8 r, 0%Z, 0%Z, Some e)
          | (g, None) =>
              match ParseUint (part 4%nat) 16 8 with
              | (_, Some e) => Normal (u8 r, u8 g, 0%Z, Some e)
              | (b, None) => Normal (u8 r, u8 g, u8 b, None)
              end
          end
      end
  end.

(** [parseColorValue]: the channel and the error; an empty string panics. *)
Definition parseColorValue (v : string) : Panicking (Z * option PErr) :=
  match rev (list_ascii_of_string v) with
  | [] => RuntimePanic
  | c :: r =>
      if (c =? "%")%char then
        match Atoi (TrimSpace (string_of_list_ascii (rev r))) with
        | (_, Some e) => Normal (0%Z, Some e)
        | (n, None) => Normal (u8 (Z.quot (wrapInt64 (n * 255)) 100), None)
        end
      else
        let '(n, err) := Atoi (TrimSpace v) in
        let n := if (255 <? n)%Z then 255%Z else n in
        Normal (u8 n, err)
  end.

(** For stating properties: the value of a hexadecimal digit, the value of
    a string of decimal digits, and the number of occurrences of a byte. *)
Definition hexVal (c : ascii) : option Z :=
  match digitVal c with
  | Some d => if (d <? 16)%Z then Some d else None
  | None => None
  end.

Definition decValue (ds : list ascii) : Z :=
  fold_left (fun acc c => acc * 10 + (Z.of_nat (nat_of_ascii c) - 48))%Z ds 0%Z.

Definition countByte (c : ascii) (s : string) : nat :=
  List.length (filter (fun x => (x =? c)%char) (list_ascii_of_string s)).

Section SVGColor.

(** [colornames.Map]: the SVG 1.1 colour names (an external package). *)
Variable colornames : string -> option Color.

(** The loop of [ParseSVGColor] over the three [rgb(...)] components. *)
Definition rgbValues (vals : list string) : Panicking (option Color * option IconErr) :=
  match vals with
  | [v0; v1; v2] =>
      match parseColorValue v0 with
      | RuntimePanic => RuntimePanic
      | Normal (_, Some e) => Normal (None, Some (IconNumErr e))
      | Normal (c0, None) =>
          match parseColorValue v1 with
          | RuntimePanic => RuntimePanic
          | Normal (_, Some e) => Normal (None, Some (IconNumErr e))
          | Normal (c1, None) =>
              match parseColorValue v2 with
              | RuntimePanic => RuntimePanic
              | Normal (_, Some e) => Normal (None, Some (IconNumErr e))
              | Normal (c2, None) => Normal (Some (NRGBA c0 c1 c2 255), None)
              end
          end
      end
  | _ => Normal (Some (NRGBA 0 0 0 0), Some IconParamMismatch)
  end.

(** [ParseSVGColor]: [None] is Go's nil colour. *)
Definition ParseSVGColor (colorStr : string) : Panicking (option Color * option IconErr) :=
  let v := lowerString colorStr in
  if HasPrefix v "url" then Normal (Some (NRGBA 0 0 0 255), None)
  else if (v =? "none")%string then Normal (None, None)
  else
    match colornames v with
    | Some cn =>
        let '(r, g, b, a) := RGBA_of cn in
        Normal (Some (NRGBA (u8 r) (u8 g) (u8 b) (u8 a)), None)
    | None =>
        match stripPrefix (list_ascii_of_string "rgb(") (list_ascii_of_string colorStr) with
        | Some cStr =>
            let cStr := TrimSuffix (string_of_list_ascii cStr) ")" in
            rgbValues (Split cStr ",")
        | None =>
            match colorStr with
            | EmptyString => RuntimePanic
            | String c _ =>
                if (c =? "#")%char then
                  match ParseSVGColorNum colorStr with
                  | RuntimePanic => RuntimePanic
                  | Normal (_, _, _, Some e) => Normal (None, Some (IconNumErr e))
                  | Normal (r, g, b, None) => Normal (Some (NRGBA r g b 255), None)
                  end
                else Normal (None, Some IconParamMismatch)
            end
        end
    end.

End SVGColor.

(* ------------------------------------------------------------------ *)
(** ** Fixed-point transforms, the transform attribute and the ellipse
    parametrisation (matrix.go, svgd.go, svgp.go) *)

(** Predicates on the text of a transform list, for stating its
    properties: a byte occurs in a string; a string starts (ends) with
    white space; the names and argument counts [parseTransform] accepts. *)
Definition hasByte (c : ascii) (s : string) : bool :=
  existsb (fun x => (x =? c)%char) (list_ascii_of_string s).

Definition startsWithSpace (s : string) : bool :=
  match list_ascii_of_string s with x :: _ => isSpace x | [] => false end.

Definition endsWithSpace (s : string) : bool :=
  match rev (list_ascii_of_string s) with x :: _ => isSpace x | [] => false end.

Definition validTransform (name : string) (ln : nat) : bool :=
  ((name =? "rotate")%string && ((ln =? 1) || (ln =? 3))%nat)
  || ((name =? "translate")%string && ((ln =? 1) || (ln =? 2))%nat)
  || ((name =? "skewx")%string && (ln =? 1)%nat)
  || ((name =? "skewy")%string && (ln =? 1)%nat)
  || ((name =? "scale")%string && ((ln =? 1) || (ln =? 2))%nat)
  || ((name =? "matrix")%string && (ln =? 6)%nat).

Module Transforms.
Import Stdlib.Reals.Reals Geometry.
Local Open Scope R_scope.

(** Truncation toward zero of a real. *)
Definition truncR (x : R) : Z :=
  if Rle_dec 0 x then Int_part x else (- Int_part (- x))%Z.

Section Fixed.

(** The result of [fixed.Int26_6(x)] when the truncation of [x] is outside
    the int32 range: implementation-defined in Go. *)
Variable outOfRange : R -> Z.

(** [fixed.Int26_6(x)] of a float64. *)
Definition Int26_6_of (x : R) : Z :=
  let z := truncR x in
  if ((-2147483648 <=? z) && (z <=? 2147483647))%Z then z else outOfRange x.

(** [Matrix2D.TFixed] on the point [(x, y)] of a [fixed.Point26_6]. *)
Definition TFixed (m : Matrix2D) (p : Z * Z) : Z * Z :=
  let '(x, y) := p in
  (Int26_6_of ((IZR x * A m + IZR y * C m) + E m * 64),
   Int26_6_of ((IZR x * B m + IZR y * D m) + F m * 64)).

(** The [MatrixAdder] methods on one path command: [Start], [Line],
    [QuadBezier] and [CubeBezier] hand their points through [TFixed] to the
    embedded adder; [Stop] is the embedded adder's own method. *)
Definition adderCmd (m : Matrix2D) (cmd : PathCmd) : PathCmd :=
  match cmd with
  | Start x y => let '(x', y') := TFixed m (x, y) in Start x' y'
  | Line x y => let '(x', y') := TFixed m (x, y) in Line x' y'
  | QuadBezier bx by' cx cy =>
      let '(bx', by'') := TFixed m (bx, by') in
      let '(cx', cy') := TFixed m (cx, cy) in
      QuadBezier bx' by'' cx' cy'
  | CubeBezier bx by' cx cy dx dy =>
      let '(bx', by'') := TFixed m (bx, by') in
      let '(cx', cy') := TFixed m (cx, cy) in
      let '(dx', dy') := TFixed m (dx, dy) in
      CubeBezier bx' by'' cx' cy' dx' dy'
  | Stop closed => Stop closed
  end.

(** A path replayed into a [MatrixAdder] with matrix [m]: the commands the
    embedded adder receives. *)
Definition MatrixAdderReplay (m : Matrix2D) (cmds : list PathCmd) : list PathCmd :=
  map (adderCmd m) cmds.

(** The coordinates of a path command lie in the int32 range of
    [fixed.Int26_6]. *)
Definition cmdInRange (cmd : PathCmd) : Prop :=
  Forall (fun z => -2147483648 <= z <= 2147483647)%Z
    match cmd with
    | Start x y | Line x y => [x; y]
    | QuadBezier a b c d => [a; b; c; d]
    | CubeBezier a b c d e f => [a; b; c; d; e; f]
    | Stop _ => []
    end.

(** [MatrixAdder.Reset]: the matrix it sets. *)
Definition ResetMatrix : Matrix2D := Identity.

End Fixed.

Section ParseTransform.

Variable ParseFloat : string -> F64 * option PErr.

(** The real value of a parsed float64 (the matrices are modelled on the
    reals); Go's unary minus on it is exact and is the negation of reals. *)
Variable toR : F64 -> R.

(** One transform [name(args)] of the list, on the trimmed, non-empty item
    [t]: the case analysis of the loop body of [parseTransform]. *)
Definition transformItem (t : string) (m1 : Matrix2D) : Matrix2D * option IconErr :=
  match Split t "(" with
  | [d0; d1] =>
      if (String.length d1 <? 1)%nat then (m1, Some IconParamMismatch)
      else
        match GetPoints ParseFloat d1 with
        | (_, Some e) => (m1, Some (IconNumErr e))
        | (pts, None) =>
            let ln := List.length pts in
            let p i := toR (nth i pts NaN) in
            let name := lowerString (TrimSpace d0) in
            if (name =? "rotate")%string then
              if (ln =? 1)%nat then (Rotate m1 (p 0%nat * PI / 180), None)
              else if (ln =? 3)%nat then
                (Translate (Rotate (Translate m1 (p 1%nat) (p 2%nat)) (p 0%nat * PI / 180))
                   (- p 1%nat) (- p 2%nat), None)
              else (m1, Some IconParamMismatch)
            else if (name =? "translate")%string then
              if (ln =? 1)%nat then (Translate m1 (p 0%nat) 0, None)
              else if (ln =? 2)%nat then (Translate m1 (p 0%nat) (p 1%nat), None)
              else (m1, Some IconParamMismatch)
            else if (name =? "skewx")%string then
              if (ln =? 1)%nat then (SkewX m1 (p 0%nat * PI / 180), None)
              else (m1, Some IconParamMismatch)
            else if (name =? "skewy")%string then
              if (ln =? 1)%nat then (SkewY m1 (p 0%nat * PI / 180), None)
              else (m1, Some IconParamMismatch)
            else if (name =? "scale")%string then
              if (ln =? 1)%nat then (Scale m1 (p 0%nat) 0, None)
              else if (ln =? 2)%nat then (Scale m1 (p 0%nat) (p 1%nat), None)
              else (m1, Some IconParamMismatch)
            else if (name =? "matrix")%string then
              if (ln =? 6)%nat then
                (Mult m1 (mkMatrix2D (p 0%nat) (p 1%nat) (p 2%nat) (p 3%nat)
                            (p 4%nat) (p 5%nat)), None)
              else (m1, Some IconParamMismatch)
            else (m1, Some IconParamMismatch)
        end
  | _ => (m1, Some IconParamMismatch)
  end.

(** The loop of [parseTransform] over the pieces of [strings.Split(v, ")")]. *)
Fixpoint transformLoop (ts : list string) (m1 : Matrix2D) : Matrix2D * option IconErr :=
  match ts with
  | [] => (m1, None)
  | t :: rest =>
      let t := TrimSpace t in
      if (String.length t =? 0)%nat then transformLoop rest m1
      else
        match transformItem t m1 with
        | (m, Some e) => (m, Some e)
        | (m, None) => transformLoop rest m
        end
  end.

(** [IconCursor.parseTransform]; [top] is the matrix of the top of the
    style stack. *)
Definition parseTransform (v : string) (top : Matrix2D) : Matrix2D * option IconErr :=
  transformLoop (Split v ")") top.

End ParseTransform.

(** [ellipsePrime]. *)
Definition ellipsePrime (a b sinTheta cosTheta eta cx cy : R) : R * R :=
  let bCosEta := b * cos eta in
  let aSinEta := a * sin eta in
  (- aSinEta * cosTheta - bCosEta * sinTheta,
   - aSinEta * sinTheta + bCosEta * cosTheta).

(** [ellipsePointAt]. *)
Definition ellipsePointAt (a b sinTheta cosTheta eta cx cy : R) : R * R :=
  let aCosEta := a * cos eta in
  let bSinEta := b * sin eta in
  (cx + aCosEta * cosTheta - bSinEta * sinTheta,
   cy + aCosEta * sinTheta + bSinEta * cosTheta).

(** The ellipse with radii [a], [b] along its axes, rotated by [rot], with
    center [(cx, cy)]: the point in the frame of its axes, and the equation. *)
Definition ellipseFrame (rot cx cy x y : R) : R * R :=
  ((x - cx) * cos rot + (y - cy) * sin rot, - (x - cx) * sin rot + (y - cy) * cos rot).

Definition onEllipse (a b rot cx cy x y : R) : Prop :=
  let '(u, v) := ellipseFrame rot cx cy x y in
  (u / a) * (u / a) + (v / b) * (v / b) = 1.

End Transforms.

(** An arc handler that emits nothing, for paths without arcs. *)
Definition noArcs : F64 -> F64 -> list F64 -> list PathCmd := fun _ _ _ => [].

Ltac nat_ifs :=
  repeat match goal with
  | |- context [(?a =? ?b)%nat] =>
      first [ rewrite (proj2 (Nat.eqb_eq a b)) by lia
            | rewrite (proj2 (Nat.eqb_neq a b)) by lia ]
  end.


(* ================================================================== *)
(** * Properties *)

Example parseFloat64_ex1 : parseFloat64 "-1.25e1" = (Fin (-(125 # 10))%Q, None).
Proof. vm_compute. reflexivity. Qed.
Example getPoints_ex1 : GetPoints parseFloat64 "1.5-2e-1,3" = ([Fin (15#10); Fin (-(2#10)); Fin 3], None).
Proof. vm_compute. reflexivity. Qed.
Example tokens_ex1 : tokens " 1.5-2e-1,3--4" = ["1.5"; "-2e-1"; "3"; "-"; "-4"].
Proof. vm_compute. reflexivity. Qed.

(** ** Tokenizer lemmas *)

Lemma loop_cond_tokenChar (lr r : ascii) :
  negb (isNumber r) && negb (r =? ".")%char
  && negb ((r =? "-")%char && (lr =? "e")%char) && negb (r =? "e")%char
  = negb (tokenChar lr r).
Proof.
  unfold tokenChar.
  destruct (isNumber r), (r =? ".")%char, (r =? "-")%char, (lr =? "e")%char,
    (r =? "e")%char; reflexivity.
Qed.

Lemma string_append_empty_r (s : string) : (s ++ EmptyString)%string = s.
Proof. induction s as [|c s IH]; simpl; [reflexivity | now rewrite IH]. Qed.

Lemma string_append_assoc (a b c : string) :
  ((a ++ b) ++ c)%string = (a ++ (b ++ c))%string.
Proof. induction a as [|x a IH]; simpl; [reflexivity | now rewrite IH]. Qed.

Lemma takeRun_length (prev : ascii) (s : string) :
  (String.length (snd (takeRun prev s)) <= String.length s)%nat.
Proof.
  revert prev; induction s as [|c s IH]; intros prev; simpl; [lia|].
  destruct (tokenChar prev c); simpl; [|lia].
  specialize (IH c); destruct (takeRun c s) as [run rest]; simpl in *; lia.
Qed.

(** Once a token is open, the loop reads the maximal run that extends it,
    parses the token, and resumes with no token open. *)
Lemma getPointsLoop_open (P : string -> F64 * option PErr) (s : string)
  (lr : ascii) (tok : string) (pts : list F64) :
  getPointsLoop P s lr (Some tok) pts =
  let (run, rest) := takeRun lr s in
  match ReadFloat P (tok ++ run) pts with
  | (p, Some err) => (p, Some err)
  | (p, None) => getPointsLoop P rest (lastChar lr run) None p
  end.
Proof.
  revert lr tok pts; induction s as [|c s IH]; intros lr tok pts.
  - simpl. rewrite string_append_empty_r.
    destruct (ReadFloat P tok pts) as [p [e|]]; reflexivity.
  - cbn [getPointsLoop takeRun]. rewrite loop_cond_tokenChar.
    destruct (tokenChar lr c) eqn:Htc; cbn [negb].
    + rewrite IH. destruct (takeRun c s) as [run rest].
      cbn [lastChar]. rewrite string_append_assoc. reflexivity.
    + rewrite string_append_empty_r.
      destruct (ReadFloat P tok pts) as [p [e|]]; [reflexivity|].
      cbn [lastChar getPointsLoop]. rewrite loop_cond_tokenChar, Htc.
      reflexivity.
Qed.

Lemma getPointsLoop_closed (P : string -> F64 * option PErr) (fuel : nat) :
  forall (s : string) (lr : ascii) (pts : list F64),
  (String.length s <= fuel)%nat ->
  getPointsLoop P s lr None pts = readTokens P (specTokens fuel lr s) pts.
Proof.
  induction fuel as [|fuel IH]; intros s lr pts Hlen.
  - destruct s; simpl in *; [reflexivity | lia].
  - destruct s as [|c s]; [reflexivity|].
    cbn [getPointsLoop specTokens]. rewrite loop_cond_tokenChar.
    simpl in Hlen.
    assert (Hopen : tokenChar lr c || (c =? "-")%char = true ->
      getPointsLoop P s c (Some (String c EmptyString)) pts =
      readTokens P (let (run, rest') := takeRun c s in
                    String c run :: specTokens fuel (lastChar c run) rest') pts).
    { intros _. rewrite getPointsLoop_open.
      pose proof (takeRun_length c s) as Hl.
      destruct (takeRun c s) as [run rest]; simpl in Hl.
      cbn [readTokens]. change (String c EmptyString ++ run)%string with (String c run).
      destruct (ReadFloat P (String c run) pts) as [p [e|]]; [reflexivity|].
      apply IH; lia. }
    destruct (tokenChar lr c) eqn:Htc; cbn [negb orb].
    + apply Hopen. reflexivity.
    + destruct (c =? "-")%char eqn:Hm.
      * apply Hopen. apply orb_true_r.
      * apply IH; lia.
Qed.

(** ** C7 *)

(** C7: [GetPoints] splits its input into the tokens described by the spec
    (maximal runs of digits, '.', 'e' and a '-' right after 'e'; any other
    '-' ends the current token and starts a new one; any other character ends
    the current token), parses them in order and returns the first parse
    error, for every [ParseFloat]. *)
Theorem GetPoints_spec_tokens (P : string -> F64 * option PErr) (s : string) :
  GetPoints P s = readTokens P (tokens s) [].
Proof.
  unfold GetPoints, tokens. apply getPointsLoop_closed. lia.
Qed.

(** ** Fractions *)

Lemma clampFraction_cases (x : F64) :
  (clampFraction x = NaN <-> x = NaN) /\
  (clampFraction x <> NaN -> exists q, clampFraction x = Fin q /\ 0 <= q <= 1).
Proof.
  destruct x as [q| | |]; unfold clampFraction, f64_gt, f64_lt.
  - destruct (Qle_bool q 1) eqn:H1; cbn [negb].
    + destruct (Qle_bool 0 q) eqn:H0; cbn [negb].
      * split; [split; discriminate|]. intros _. exists q.
        apply Qle_bool_iff in H0, H1. split; [reflexivity|]. split; assumption.
      * split; [split; discriminate|]. intros _. exists 0. split; [reflexivity|].
        split; [apply Qle_refl|]. discriminate.
    + split; [split; discriminate|]. intros _. exists 1. split; [reflexivity|].
      split; [discriminate|apply Qle_refl].
  - split; [split; discriminate|]. intros _. exists 1. split; [reflexivity|].
    split; [discriminate|apply Qle_refl].
  - split; [split; discriminate|]. intros _. exists 0. split; [reflexivity|].
    split; [apply Qle_refl|discriminate].
  - split; [split; reflexivity|]. intros H; contradiction H; reflexivity.
Qed.

Lemma f64_div_fraction_NaN (f : F64) (v : string) :
  f64_div f (fractionDivisor v) = NaN <-> f = NaN.
Proof.
  unfold fractionDivisor. destruct (HasPercentSuffix (TrimSpace v));
  destruct f as [q| | |]; simpl; split; intros H; try discriminate; try reflexivity.
Qed.

Lemma readFraction_parsed (P : string -> F64 * option PErr) (v : string) (f : F64) :
  P (fractionText v) = (f, None) ->
  readFraction P v = (clampFraction (f64_div f (fractionDivisor v)), None).
Proof.
  unfold readFraction, fractionText, fractionDivisor.
  destruct (HasPercentSuffix (TrimSpace v)); intros H; rewrite H; reflexivity.
Qed.

(** C9 (amended): for an input whose text parses as a float, [readFraction]
    returns no error and a value clamped to [0,1] (greater than 1 becomes 1,
    less than 0 becomes 0), except that a NaN parse is returned unchanged; the
    same value is stored by every geometry attribute of both gradient kinds
    (x1, y1, x2, y2, cx, cy, fx, fy, r) and by a stop's offset. *)
Theorem readFraction_clamps (P : string -> F64 * option PErr) (v : string)
  (f : F64) (points : list F64) (setFx setFy : bool)
  (ColorT : Type) (PC : string -> ColorT * bool) (st : ParsedStop ColorT) :
  P (fractionText v) = (f, None) ->
  let r := clampFraction (f64_div f (fractionDivisor v)) in
  readFraction P v = (r, None) /\
  (r = NaN <-> f = NaN) /\
  (r <> NaN -> exists q, r = Fin q /\ 0 <= q <= 1) /\
  (forall name i, In (name, i) [("x1", 0%nat); ("y1", 1%nat); ("x2", 2%nat); ("y2", 3%nat)] ->
     linearGradAttr P name v points = (setNth i r points, None)) /\
  (forall name i, In (name, i) [("cx", 0%nat); ("cy", 1%nat); ("fx", 2%nat); ("fy", 3%nat); ("r", 4%nat)] ->
     exists setFx' setFy',
       radialGradAttr P name v (points, setFx, setFy) = (setNth i r points, setFx', setFy', None)) /\
  stopAttr P PC "offset" v st = (mkParsedStop r (pColor st) (pOpacity st), None).
Proof.
  intros Hp r. pose proof (readFraction_parsed P v f Hp) as Hr.
  destruct (clampFraction_cases (f64_div f (fractionDivisor v))) as [Hn Hq].
  split; [exact Hr|]. split.
  { unfold r. rewrite Hn. apply f64_div_fraction_NaN. }
  split; [exact Hq|]. split; [|split].
  - intros name i Hin. simpl in Hin.
    unfold linearGradAttr. rewrite Hr.
    repeat destruct Hin as [Hin|Hin]; try contradiction; injection Hin as <- <-;
      reflexivity.
  - intros name i Hin. simpl in Hin.
    unfold radialGradAttr. rewrite Hr.
    repeat destruct Hin as [Hin|Hin]; try contradiction; injection Hin as <- <-;
      eexists; eexists; reflexivity.
  - unfold stopAttr. rewrite Hr. reflexivity.
Qed.

Lemma readFraction_clamps_witness :
  parseFloat64 (fractionText "150%") = (Fin 150, None) /\
  readFraction parseFloat64 "150%" = (Fin 1, None).
Proof.
  split; [vm_compute; reflexivity|].
  destruct (readFraction_clamps parseFloat64 "150%" (Fin 150) linearDefaultPoints
              false false unit (fun _ => (tt, false)) (mkParsedStop (Fin 0) None (Fin 1)))
    as [H _].
  - vm_compute. reflexivity.
  - rewrite H. vm_compute. reflexivity.
Defined.

(** C9 counterexample: Go's [strconv.ParseFloat] accepts "NaN"; NaN is neither
    greater than 1 nor less than 0, so [readFraction] returns it unclamped
    and a gradient attribute [x1="NaN"] stores NaN, outside [0,1]. *)
Lemma readFraction_NaN_unclamped :
  parseFloat64 "NaN" = (NaN, None) /\
  readFraction parseFloat64 "NaN" = (NaN, None) /\
  linearGradAttr parseFloat64 "x1" "NaN" linearDefaultPoints
    = ([NaN; Fin 0; Fin 1; Fin 0; Fin 0], None) /\
  ~ (exists q, fst (readFraction parseFloat64 "NaN") = Fin q /\ 0 <= q <= 1).
Proof.
  split; [vm_compute; reflexivity|].
  split; [vm_compute; reflexivity|].
  split; [vm_compute; reflexivity|].
  intros [q [Hq _]]. vm_compute in Hq. discriminate.
Qed.

(** ** The path compiler on the spec's scenarios *)


Example compile_S1 :
  Path (fst (CompilePath parseFloat64 noArcs "M20,20 L500,800 L800,200z" cursor0))
  = [Start 1280 1280; Line 32000 51200; Line 51200 12800; Stop true].
Proof. vm_compute. reflexivity. Qed.

Example compile_S2 :
  Path (fst (CompilePath parseFloat64 noArcs "m20,20,0,400,400,0z" cursor0))
  = [Start 1280 1280; Line 1280 26880; Line 26880 26880; Stop true].
Proof. vm_compute. reflexivity. Qed.

Example compile_S3 :
  Path (fst (CompilePath parseFloat64 noArcs "M100,100 Q400,100 250,250 T400,400z" cursor0))
  = [Start 6400 6400; QuadBezier 25600 6400 16000 16000;
     QuadBezier 6400 25600 25600 25600; Stop true].
Proof. vm_compute. reflexivity. Qed.

(** ** Closing commands *)

Lemma addSeg_close (P : string -> F64 * option PErr) (arc : F64 -> F64 -> list F64 -> list PathCmd)
  (k : ascii) (rest : string) (c : PathCursor) :
  (k = "z"%char \/ k = "Z"%char) -> GetPoints P rest = ([], None) ->
  fst (addSeg P arc k rest c) =
    set_lastKey k (set_inPath false
      (set_Path (Path c ++ (if inPath c then [Stop true] else []))%list (set_points [] c)))
  /\ snd (addSeg P arc k rest c) = inl tt.
Proof.
  intros Hk Hg. unfold addSeg. rewrite Hg.
  destruct c as [path px py cx cy sx sy pts lk em ip].
  destruct Hk as [-> | ->]; simpl; destruct ip; simpl;
    rewrite ?app_nil_r; split; reflexivity.
Qed.

(** C10: a [Z] or [z] segment without parameters never fails; it emits
    [Stop(true)] exactly when a subpath is open and leaves [inPath] cleared,
    so a second close right after it emits nothing. *)
Theorem close_stop_once (P : string -> F64 * option PErr)
  (arc : F64 -> F64 -> list F64 -> list PathCmd)
  (k : ascii) (rest : string) (c : PathCursor) :
  (k = "z"%char \/ k = "Z"%char) -> GetPoints P rest = ([], None) ->
  let '(c1, r1) := addSeg P arc k rest c in
  r1 = inl tt /\
  Path c1 = (Path c ++ (if inPath c then [Stop true] else []))%list /\
  inPath c1 = false /\
  (forall k' rest', (k' = "z"%char \/ k' = "Z"%char) -> GetPoints P rest' = ([], None) ->
     snd (addSeg P arc k' rest' c1) = inl tt /\
     Path (fst (addSeg P arc k' rest' c1)) = Path c1).
Proof.
  intros Hk Hg.
  destruct (addSeg_close P arc k rest c Hk Hg) as [H1 H2].
  destruct (addSeg P arc k rest c) as [c1 r1]. simpl in H1, H2. subst r1.
  split; [reflexivity|]. split; [rewrite H1; reflexivity|].
  split; [rewrite H1; reflexivity|].
  intros k' rest' Hk' Hg'.
  destruct (addSeg_close P arc k' rest' c1 Hk' Hg') as [H1' H2'].
  assert (Hi : inPath c1 = false) by (rewrite H1; reflexivity).
  split; [exact H2'|]. rewrite H1'. simpl. rewrite Hi. apply app_nil_r.
Qed.

Lemma close_stop_once_witness :
  let c := set_inPath true cursor0 in
  ("Z"%char = "z"%char \/ "Z"%char = "Z"%char) /\ GetPoints parseFloat64 " " = ([], None) /\
  addSeg parseFloat64 noArcs "Z" " " c =
    (set_lastKey "Z" (set_inPath false (set_Path [Stop true] (set_points [] c))), inl tt).
Proof.
  intros c.
  assert (Hk : "Z"%char = "z"%char \/ "Z"%char = "Z"%char) by (right; reflexivity).
  assert (Hg : GetPoints parseFloat64 " " = ([], None)) by (vm_compute; reflexivity).
  split; [exact Hk|]. split; [exact Hg|].
  pose proof (close_stop_once parseFloat64 noArcs "Z" " " c Hk Hg) as H.
  destruct (addSeg parseFloat64 noArcs "Z" " " c) as [c1 r1] eqn:E.
  destruct H as [-> [Hp [Hi _]]].
  rewrite <- E. vm_compute. reflexivity.
Defined.

(** ** Errors of the path compiler *)

Section CompileErrors.

Variable P : string -> F64 * option PErr.
Variable arc : F64 -> F64 -> list F64 -> list PathCmd.

Lemma smoothQuads_ok (k : ascii) (l : list F64) (c : PathCursor) :
  exists c', smoothQuads k l c = (c', inl tt).
Proof.
  revert c.
  induction l as [l H] using
    (well_founded_induction (Wf_nat.well_founded_ltof _ (@List.length F64))).
  intros c; destruct l as [| x [| y r]]; simpl; try (eexists; reflexivity).
  unfold bind, get, modify, emit; simpl.
  match goal with |- context [let '(_, _) := ?p in _] => destruct p end.
  apply H; unfold ltof; simpl; lia.
Qed.

Lemma smoothCubes_ok (k : ascii) (l : list F64) (c : PathCursor) :
  exists c', smoothCubes k l c = (c', inl tt).
Proof.
  revert c.
  induction l as [l H] using
    (well_founded_induction (Wf_nat.well_founded_ltof _ (@List.length F64))).
  intros c; destruct l as [| x2 [| y2 [| x3 [| y3 r]]]]; simpl; try (eexists; reflexivity).
  unfold bind, get, modify, emit; simpl.
  match goal with |- context [let '(_, _) := ?p in _] => destruct p end.
  apply H; unfold ltof; simpl; lia.
Qed.

Lemma arcsOf_ok (k : ascii) (l : list F64) (c : PathCursor) :
  exists c', arcsOf arc k l c = (c', inl tt).
Proof.
  revert c.
  induction l as [l H] using
    (well_founded_induction (Wf_nat.well_founded_ltof _ (@List.length F64))).
  intros c; destruct l as [| p0 [| p1 [| p2 [| p3 [| p4 [| p5 [| p6 r]]]]]]]; simpl; try (eexists; reflexivity).
  unfold bind, get, modify, emit; simpl.
  match goal with |- context [let '(_, _) := ?p in _] => destruct p end.
  apply H; unfold ltof; simpl; lia.
Qed.

(** A failing segment emits nothing: every error of [addSeg] is returned
    before its first emission. *)
Lemma addSeg_error_no_emit (k : ascii) (r : string) (c c' : PathCursor) (e : PathErr) :
  addSeg P arc k r c = (c', inr e) -> Path c' = Path c.
Proof.
  unfold addSeg. destruct (GetPoints P r) as [pts [e'|]].
  - simpl. intros H; inversion H; subst; reflexivity.
  - unfold bind at 1. simpl.
    destruct c as [path px py cx cy sx sy pts0 lk em ip]; simpl.
    unfold hasSetsOrMore, pointsToAbs, emit.
    unfold bind, get, modify, ret, throw; simpl.
    repeat match goal with
    | |- context [if ?b then _ else _] => destruct b; simpl
    | |- context [smoothQuads ?a ?l ?c0] =>
        let c2 := fresh "c" in
        destruct (smoothQuads_ok a l c0) as [c2 ->]; simpl
    | |- context [smoothCubes ?a ?l ?c0] =>
        let c2 := fresh "c" in
        destruct (smoothCubes_ok a l c0) as [c2 ->]; simpl
    | |- context [arcsOf arc ?a ?l ?c0] =>
        let c2 := fresh "c" in
        destruct (arcsOf_ok a l c0) as [c2 ->]; simpl
    end;
    intros H; inversion H; subst; reflexivity.
Qed.

End CompileErrors.

Section CompileSegments.

Variable P : string -> F64 * option PErr.
Variable arc : F64 -> F64 -> list F64 -> list PathCmd.

Lemma compileLoop_segments (s : string) :
  forall (li : option (ascii * string)) (c : PathCursor),
  compileLoop P arc s li c = runSegs P arc (segLoop s li) c.
Proof.
  induction s as [|v s IH]; intros li c.
  - destruct li as [[k r]|]; simpl; [|reflexivity].
    unfold bind, ret. destruct (addSeg P arc k r c) as [c' [[]|e]]; reflexivity.
  - simpl. destruct (isLetter v && negb (v =? "e")%char).
    + destruct li as [[k r]|]; simpl.
      * unfold bind. destruct (addSeg P arc k r c) as [c' [[]|e]];
          [apply IH | reflexivity].
      * unfold bind, ret. apply IH.
    + apply IH.
Qed.

Lemma runSegs_error (segs : list (ascii * string)) :
  forall (c c' : PathCursor) (e : PathErr),
  runSegs P arc segs c = (c', inr e) ->
  exists pre k r post c1,
    segs = (pre ++ (k, r) :: post)%list /\
    runSegs P arc pre c = (c1, inl tt) /\
    addSeg P arc k r c1 = (c', inr e).
Proof.
  induction segs as [|[k r] segs IH]; intros c c' e H; simpl in H.
  - discriminate.
  - unfold bind in H. destruct (addSeg P arc k r c) as [c1 [[]|e1]] eqn:E.
    + destruct (IH c1 c' e H) as (pre & k' & r' & post & c2 & Hs & Hp & Ha).
      exists ((k, r) :: pre), k', r', post, c2. split; [simpl; now rewrite Hs|].
      split; [|exact Ha]. simpl. unfold bind. rewrite E. exact Hp.
    + injection H as -> ->. exists [], k, r, segs, c.
      split; [reflexivity|]. split; [reflexivity|exact E].
Qed.

End CompileSegments.

(** C3 (amended): when [CompilePath] fails, the error is the one of the first
    failing segment, the segments after it are not run, and that segment
    emits nothing; the commands emitted by the segments before it stay in the
    cursor's path (nothing is rolled back). *)
Theorem CompilePath_error_keeps_prefix (P : string -> F64 * option PErr)
  (arc : F64 -> F64 -> list F64 -> list PathCmd) (s : string)
  (c c' : PathCursor) (e : PathErr) :
  CompilePath P arc s c = (c', inr e) ->
  exists pre k r post c1,
    segments s = (pre ++ (k, r) :: post)%list /\
    runSegs P arc pre (initCursor c) = (c1, inl tt) /\
    addSeg P arc k r c1 = (c', inr e) /\
    Path c' = Path c1.
Proof.
  unfold CompilePath. unfold bind at 1. simpl.
  rewrite compileLoop_segments. intros H.
  destruct (runSegs_error P arc _ _ _ _ H) as (pre & k & r & post & c1 & Hs & Hp & Ha).
  exists pre, k, r, post, c1. repeat split; try assumption.
  exact (addSeg_error_no_emit P arc k r c1 c' e Ha).
Qed.

Lemma CompilePath_error_keeps_prefix_witness :
  let res := CompilePath parseFloat64 noArcs "M0 0L1" cursor0 in
  res = (fst res, inr ParamMismatch) /\
  exists pre k r post c1,
    segments "M0 0L1" = (pre ++ (k, r) :: post)%list /\
    runSegs parseFloat64 noArcs pre (initCursor cursor0) = (c1, inl tt) /\
    addSeg parseFloat64 noArcs k r c1 = (fst res, inr ParamMismatch) /\
    Path (fst res) = Path c1.
Proof.
  intros res.
  assert (H : res = (fst res, inr ParamMismatch)) by (vm_compute; reflexivity).
  split; [exact H|].
  exact (CompilePath_error_keeps_prefix parseFloat64 noArcs "M0 0L1" cursor0 _ _ H).
Defined.

(** C3 counterexample: "M0 0L1" fails on the one-parameter [L] segment, yet
    the [Start] emitted by the [M] segment stays in the cursor's path. *)
Lemma CompilePath_partial_path :
  let res := CompilePath parseFloat64 noArcs "M0 0L1" cursor0 in
  snd res = inr ParamMismatch /\ Path (fst res) = [Start 0 0] /\ Path (fst res) <> [].
Proof.
  vm_compute. split; [reflexivity|]. split; [reflexivity|]. discriminate.
Qed.

(** C1 (code bug): the relative [m] of "M10 10m5 5" is not anchored at the
    pen (10,10) left by the first segment: [addSeg] resets [placeX] and
    [placeY] to 0 before adding them, so the second [Start] is at (5,5)
    (320/64) rather than (15,15) (960/64); a relative [l] at the same place
    is anchored at the pen. *)
Theorem relative_m_anchored_at_origin :
  Path (fst (CompilePath parseFloat64 noArcs "M10 10m5 5" cursor0))
    = [Start 640 640; Start 320 320] /\
  Path (fst (CompilePath parseFloat64 noArcs "M10 10l5 5" cursor0))
    = [Start 640 640; Line 960 960].
Proof. vm_compute. split; reflexivity. Qed.

(** ** Gradient sampling *)

(** C4: in Pad spread mode, a sample at [t >= 1] is the last stop's color and
    one at [t <= 0] the first stop's color, each passed through
    [ApplyOpacity] with the stop's opacity times the external opacity. *)
Theorem pad_ends (g : Gradient) (t op : Q) :
  spread g = PadSpread -> (2 <= List.length (stops g))%nat ->
  (1 <= t -> tColor g t op =
     ApplyOpacity (stopColor (last (stops g) noStop))
                  (opacity (last (stops g) noStop) * op)) /\
  (t <= 0 -> tColor g t op =
     ApplyOpacity (stopColor (hd noStop (stops g)))
                  (opacity (hd noStop (stops g)) * op)).
Proof.
  intros Hs Hd. unfold tColor, isPad. rewrite Hs.
  assert (Hl : nth (List.length (stops g) - 1) (stops g) noStop = last (stops g) noStop).
  { clear Hd. induction (stops g) as [|x l IH]; [reflexivity|].
    destruct l as [|y l]; [reflexivity|].
    change (nth (List.length (y :: l)) (x :: y :: l) noStop = last (y :: l) noStop).
    rewrite <- IH. simpl. now rewrite Nat.sub_0_r. }
  split; intros Ht.
  - apply Qle_bool_iff in Ht. rewrite Ht. simpl. now rewrite Hl.
  - destruct (Qle_bool 1 t) eqn:E1.
    + apply Qle_bool_iff in E1. exfalso. apply (Qlt_irrefl 0).
      apply Qlt_le_trans with t; [|assumption]. apply Qlt_le_trans with 1; [reflexivity|exact E1].
    + apply Qle_bool_iff in Ht. rewrite Ht. simpl. now destruct (stops g).
Qed.

Lemma pad_ends_witness :
  let g := mkGradient [] [mkGradStop (NRGBA 255 0 0 255) 0 1;
                          mkGradStop (NRGBA 0 0 255 255) 1 (1#2)]
                      (0, 0, 1, 1) (1, 0, 0, 1, 0, 0) PadSpread ObjectBoundingBox false in
  tColor g 3 1 = NRGBA 0 0 255 127 /\ tColor g (-1) 1 = NRGBA 255 0 0 255.
Proof.
  intros g.
  destruct (pad_ends g 3 1 eq_refl ltac:(simpl; lia)) as [H1 _].
  destruct (pad_ends g (-1) 1 eq_refl ltac:(simpl; lia)) as [_ H2].
  split; [rewrite H1 by (vm_compute; discriminate) | rewrite H2 by (vm_compute; discriminate)];
    vm_compute; reflexivity.
Defined.

(** C8: [GetColorFunction] on a gradient without stops yields the debug
    color RGBA(255,0,255,255) through [ApplyOpacity] with the external
    opacity, i.e. NRGBA(255,0,255,uint8(opacity*255)); with exactly one stop
    it yields that stop's color through [ApplyOpacity] with the external
    opacity. *)
Theorem GetColorFunction_few_stops (F : Type) (build : Gradient -> Q -> F)
  (g : Gradient) (s : GradStop) (op : Q) :
  GetColorFunction F build (set_stops g []) op
    = SolidColor (ApplyOpacity (RGBA 255 0 255 255) op) /\
  ApplyOpacity (RGBA 255 0 255 255) op = NRGBA 255 0 255 (u8f (op * 255)) /\
  GetColorFunction F build (set_stops g [s]) op
    = SolidColor (ApplyOpacity (stopColor s) op).
Proof. repeat split. Qed.

Lemma Qle_bool_comp (x x' y y' : Q) : x == x' -> y == y' -> Qle_bool x y = Qle_bool x' y'.
Proof.
  intros Hx Hy. destruct (Qle_bool x y) eqn:E1, (Qle_bool x' y') eqn:E2; try reflexivity.
  - apply Qle_bool_iff in E1. rewrite Hx, Hy in E1. apply Qle_bool_iff in E1. congruence.
  - apply Qle_bool_iff in E2. rewrite <- Hx, <- Hy in E2. apply Qle_bool_iff in E2. congruence.
Qed.

Lemma Qltb_comp (x x' y y' : Q) : x == x' -> y == y' -> Qltb x y = Qltb x' y'.
Proof. intros Hx Hy. unfold Qltb. now rewrite (Qle_bool_comp y y' x x'). Qed.

Lemma Qltb_iff (x y : Q) : Qltb x y = true <-> x < y.
Proof.
  unfold Qltb. rewrite negb_true_iff. split; intros H.
  - apply Qnot_le_lt. intros H'. apply Qle_bool_iff in H'. congruence.
  - destruct (Qle_bool y x) eqn:E; [|reflexivity].
    apply Qle_bool_iff in E. exfalso. apply (Qlt_not_le _ _ H E).
Qed.

Lemma Qltb_false (x y : Q) : Qltb x y = false <-> y <= x.
Proof.
  unfold Qltb. rewrite negb_false_iff. apply Qle_bool_iff.
Qed.

Lemma Qtrunc_comp (x y : Q) : x == y -> Qtrunc x = Qtrunc y.
Proof.
  intros H. unfold Qtrunc. rewrite (Qle_bool_comp 0 0 x y) by (reflexivity || exact H).
  destruct (Qle_bool 0 y).
  - now rewrite H.
  - assert (H' : - x == - y) by (now rewrite H). now rewrite H'.
Qed.

Lemma u8f_comp (x y : Q) : x == y -> u8f x = u8f y.
Proof. intros H. unfold u8f. now rewrite (Qtrunc_comp x y H). Qed.

Lemma ApplyOpacity_comp (c : Color) (a b : Q) : a == b -> ApplyOpacity c a = ApplyOpacity c b.
Proof.
  intros H. unfold ApplyOpacity. destruct (RGBA_of c) as [[[r g] b'] a'].
  f_equal. apply u8f_comp. now rewrite H.
Qed.

(** A channel of an opaque color survives the 16-bit to 8-bit round trip of
    [blendStops] at an end of a blend. *)
Lemma channel_roundtrip (r : Z) :
  (0 <= r < 256)%Z -> u8 (widen8 (u8f (inject_Z (widen8 r) / 256))) = u8 (widen8 r).
Proof.
  intros H.
  assert (Hall : forallb (fun z => Z.eqb (u8 (widen8 (u8f (inject_Z (widen8 z) / 256))))
                                         (u8 (widen8 z)))
                         (map Z.of_nat (seq 0 256)) = true) by (vm_compute; reflexivity).
  rewrite forallb_forall in Hall. apply Z.eqb_eq, Hall.
  apply in_map_iff. exists (Z.to_nat r). split; [lia|]. apply in_seq; lia.
Qed.

Lemma widen8_div (r : Z) : (widen8 r * 255 / 255 = widen8 r)%Z.
Proof. apply Z.div_mul. lia. Qed.

(** At [tp == 1] the blend of [s1] into an opaque [s2] is [s2]'s color. *)
Lemma blend_at_end (c1 c2 : Color) (tp a : Q) :
  opaque c2 -> tp == 1 ->
  (let '(r1, g1, b1, _) := RGBA_of c1 in
   let '(r2, g2, b2, _) := RGBA_of c2 in
   ApplyOpacity
     (RGBA (u8f ((inject_Z r1 * (1 - tp) + inject_Z r2 * tp) / 256))
           (u8f ((inject_Z g1 * (1 - tp) + inject_Z g2 * tp) / 256))
           (u8f ((inject_Z b1 * (1 - tp) + inject_Z b2 * tp) / 256))
           255) a) = ApplyOpacity c2 a.
Proof.
  intros Hc Htp. destruct (RGBA_of c1) as [[[r1 g1] b1] a1].
  assert (E : forall z1 z2 : Z, (inject_Z z1 * (1 - tp) + inject_Z z2 * tp) / 256
                                == inject_Z z2 / 256)
    by (intros; rewrite Htp; field).
  destruct c2 as [r g b a2|r g b a2]; simpl in Hc; destruct Hc as (-> & Hr & Hg & Hb);
    cbn [RGBA_of]; rewrite !(u8f_comp _ _ (E _ _)); unfold ApplyOpacity; cbn [RGBA_of];
    rewrite ?widen8_div, channel_roundtrip, channel_roundtrip, channel_roundtrip
      by assumption; reflexivity.
Qed.

Lemma Qeq_bool_lt (x y : Q) : x < y -> Qeq_bool x y = false /\ Qeq_bool y x = false.
Proof.
  intros H. split; destruct (Qeq_bool _ _) eqn:E; try reflexivity;
    apply Qeq_bool_iff in E; rewrite E in H; exfalso; exact (Qlt_irrefl _ H).
Qed.

Lemma ApplyOpacity_RGBA_comp (x1 x2 y1 y2 z1 z2 a b : Q) :
  x1 == x2 -> y1 == y2 -> z1 == z2 -> a == b ->
  ApplyOpacity (RGBA (u8f x1) (u8f y1) (u8f z1) 255) a
  = ApplyOpacity (RGBA (u8f x2) (u8f y2) (u8f z2) 255) b.
Proof.
  intros Hx Hy Hz Ha. rewrite (u8f_comp _ _ Hx), (u8f_comp _ _ Hy), (u8f_comp _ _ Hz).
  now apply ApplyOpacity_comp.
Qed.
Lemma blend_reverse_pair (sL sU : GradStop) (m x op : Q) :
  offset sL < offset sU -> x == 1 - m ->
  blendStops m op sL sU false = blendStops x op sU sL true.
Proof.
  intros Hlt Hx. unfold blendStops.
  assert (Hf : Qltb (offset sU) (offset sL) = false) by (apply Qltb_false; now apply Qlt_le_weak).
  rewrite Hf, andb_false_r. simpl.
  destruct (Qeq_bool_lt _ _ Hlt) as [E1 E2]. rewrite E1, E2.
  assert (N1 : ~ offset sU - offset sL == 0) by (intros H; lra).
  assert (N2 : ~ offset sL - offset sU == 0) by (intros H; lra).
  destruct (RGBA_of (stopColor sL)) as [[[rL gL] bL] aL].
  destruct (RGBA_of (stopColor sU)) as [[[rU gU] bU] aU].
  apply ApplyOpacity_RGBA_comp; rewrite Hx; field; auto.
Qed.

Lemma blend_end_forward (s1 s2 : GradStop) (m op : Q) :
  offset s1 < offset s2 -> m == offset s2 -> opaque (stopColor s2) ->
  blendStops m op s1 s2 false = ApplyOpacity (stopColor s2) (opacity s2 * op).
Proof.
  intros Hlt Hm Hc. unfold blendStops.
  assert (Hf : Qltb (offset s2) (offset s1) = false) by (apply Qltb_false; now apply Qlt_le_weak).
  rewrite Hf. simpl. rewrite (proj2 (Qeq_bool_lt _ _ Hlt)).
  assert (Htp : (m - offset s1) / (offset s2 - offset s1) == 1)
    by (rewrite Hm; field; intros H; lra).
  etransitivity; [|exact (blend_at_end (stopColor s1) (stopColor s2) _ (opacity s2 * op) Hc Htp)].
  destruct (RGBA_of (stopColor s1)) as [[[r1 g1] b1] a1].
  destruct (RGBA_of (stopColor s2)) as [[[r2 g2] b2] a2].
  apply ApplyOpacity_comp. rewrite Htp. ring.
Qed.

Lemma blend_end_reverse (s1 s2 : GradStop) (x op : Q) :
  offset s2 < offset s1 -> 1 - x == offset s2 -> opaque (stopColor s2) ->
  blendStops x op s1 s2 true = ApplyOpacity (stopColor s2) (opacity s2 * op).
Proof.
  intros Hlt Hx Hc. unfold blendStops. rewrite andb_false_r. simpl.
  rewrite (proj1 (Qeq_bool_lt _ _ Hlt)).
  assert (Htp : (1 - x - offset s1) / (offset s2 - offset s1) == 1)
    by (rewrite Hx; field; intros H; lra).
  etransitivity; [|exact (blend_at_end (stopColor s1) (stopColor s2) _ (opacity s2 * op) Hc Htp)].
  destruct (RGBA_of (stopColor s1)) as [[[r1 g1] b1] a1].
  destruct (RGBA_of (stopColor s2)) as [[[r2 g2] b2] a2].
  apply ApplyOpacity_comp. rewrite Htp. ring.
Qed.

Section AdvanceWhile.
Context {A : Type} (cond : A -> bool) (dflt : A).

Lemma advanceWhile_le (l : list A) : (advanceWhile cond l <= List.length l)%nat.
Proof. induction l as [|x l IH]; simpl; [lia|]. destruct (cond x); simpl; lia. Qed.

Lemma advanceWhile_before (l : list A) (i : nat) :
  (i < advanceWhile cond l)%nat -> cond (nth i l dflt) = true.
Proof.
  revert i. induction l as [|x l IH]; intros i Hi; simpl in *; [lia|].
  destruct (cond x) eqn:E; simpl in Hi; [|lia].
  destruct i; [exact E|]. apply IH. lia.
Qed.

Lemma advanceWhile_stop (l : list A) :
  (advanceWhile cond l < List.length l)%nat ->
  cond (nth (advanceWhile cond l) l dflt) = false.
Proof.
  induction l as [|x l IH]; intros Hl; simpl in *; [lia|].
  destruct (cond x) eqn:E; [|exact E]. apply IH. lia.
Qed.
End AdvanceWhile.

Lemma StronglySorted_nth {A : Type} (R : A -> A -> Prop) (l : list A) (dflt : A) (i j : nat) :
  StronglySorted R l -> (i < j < List.length l)%nat -> R (nth i l dflt) (nth j l dflt).
Proof.
  revert i j. induction l as [|x l IH]; intros i j Hs Hij; simpl in *; [lia|].
  apply StronglySorted_inv in Hs as [Hs Hf].
  destruct i, j; try lia.
  - rewrite Forall_forall in Hf. apply Hf, nth_In. lia.
  - apply IH; [exact Hs | lia].
Qed.

Lemma blendStops_comp (t t' op : Q) (s1 s2 : GradStop) (flip : bool) :
  t == t' -> blendStops t op s1 s2 flip = blendStops t' op s1 s2 flip.
Proof.
  intros H. unfold blendStops.
  rewrite (Qltb_comp 1 1 t t') by (reflexivity || exact H).
  destruct (Qltb (offset s2) (offset s1) && negb flip), (Qltb 1 t'); simpl;
    destruct (Qeq_bool _ _); try reflexivity;
    destruct (RGBA_of (stopColor s1)) as [[[r1 g1] b1] a1];
    destruct (RGBA_of (stopColor s2)) as [[[r2 g2] b2] a2];
    destruct flip; apply ApplyOpacity_RGBA_comp; rewrite H; reflexivity.
Qed.

Lemma spreadColor_comp (g : Gradient) (m m' op : Q) :
  m == m' -> spreadColor g m op = spreadColor g m' op.
Proof.
  intros H. unfold spreadColor.
  assert (E1 : forall l : list GradStop,
            advanceWhile (fun s => Qltb (offset s) m) l
            = advanceWhile (fun s => Qltb (offset s) m') l).
  { induction l as [|s l IH]; [reflexivity|]. simpl.
    rewrite (Qltb_comp (offset s) (offset s) m m') by (reflexivity || exact H).
    now rewrite IH. }
  assert (E2 : forall l : list GradStop,
            advanceWhile (fun s => Qltb (1 - offset s) (m - 1)) l
            = advanceWhile (fun s => Qltb (1 - offset s) (m' - 1)) l).
  { induction l as [|s l IH]; [reflexivity|]. simpl.
    rewrite (Qltb_comp (1 - offset s) (1 - offset s) (m - 1) (m' - 1))
      by (reflexivity || now rewrite H).
    now rewrite IH. }
  rewrite E1, E2.
  assert (H1 : m - 1 == m' - 1) by (now rewrite H).
  destruct (spread g);
    repeat match goal with
    | |- context [if ?b then _ else _] => destruct b
    | |- context [let '(_, _) := ?p in _] => destruct p
    end;
    first [reflexivity | apply blendStops_comp; assumption].
Qed.
Lemma advanceWhile_all {A : Type} (cond : A -> bool) (dflt : A) (l : list A) :
  (forall i, (i < List.length l)%nat -> cond (nth i l dflt) = true) ->
  advanceWhile cond l = List.length l.
Proof.
  intros H. pose proof (advanceWhile_le cond l) as Hle.
  destruct (Nat.eq_dec (advanceWhile cond l) (List.length l)) as [E|N]; [exact E|].
  exfalso. assert (Hlt : (advanceWhile cond l < List.length l)%nat) by lia.
  pose proof (advanceWhile_stop cond dflt l Hlt) as Hs. rewrite H in Hs by exact Hlt. discriminate.
Qed.

Lemma reflect_core (g : Gradient) (op m m' : Q) :
  spread g = ReflectSpread -> (2 <= List.length (stops g))%nat ->
  Sorted (fun a b => offset a < offset b) (stops g) ->
  Forall (fun s => 0 <= offset s <= 1) (stops g) ->
  Forall (fun s => opaque (stopColor s)) (stops g) ->
  0 < m -> m < 1 -> m' == 2 - m -> spreadColor g m op = spreadColor g m' op.
Proof.
    intros Hsp Hd Hsort Hoff Hopq Hm0 Hm1 Hm'.
    set (l := stops g) in *. set (d := List.length l) in *.
    assert (HS : forall i j, (i < j < d)%nat ->
              offset (nth i l noStop) < offset (nth j l noStop)).
    { intros i j Hij. apply (StronglySorted_nth (fun a b => offset a < offset b)); [|exact Hij].
      apply Sorted_StronglySorted; [|exact Hsort]. intros x y z; apply Qlt_trans. }
    assert (HO : forall i, (i < d)%nat -> 0 <= offset (nth i l noStop) <= 1).
    { intros i Hi. rewrite Forall_forall in Hoff. apply Hoff, nth_In. exact Hi. }
    assert (HC : forall i, (i < d)%nat -> opaque (stopColor (nth i l noStop))).
    { intros i Hi. rewrite Forall_forall in Hopq. apply Hopq, nth_In. exact Hi. }
    unfold spreadColor. rewrite Hsp. fold l. fold d. cbv beta zeta.
    assert (Hall : advanceWhile (fun s => Qltb (offset s) m') l = d).
    { apply (advanceWhile_all _ noStop). intros i Hi. apply Qltb_iff.
      specialize (HO i Hi). lra. }
    rewrite Hall.
    set (p := advanceWhile (fun s => Qltb (offset s) m) l).
    set (q := advanceWhile (fun s => Qltb (1 - offset s) (m' - 1)) (rev l)).
    assert (Hp : (p <= d)%nat) by apply advanceWhile_le.
    assert (Hq : (q <= d)%nat) by (unfold q, d; rewrite <- (length_rev l); apply advanceWhile_le).
    assert (F1 : forall i, (i < p)%nat -> offset (nth i l noStop) < m).
    { intros i Hi. apply Qltb_iff. exact (advanceWhile_before _ noStop l i Hi). }
    assert (F2 : (p < d)%nat -> m <= offset (nth p l noStop)).
    { intros Hi. apply Qltb_false. exact (advanceWhile_stop _ noStop l Hi). }
    assert (F3 : forall j, (j < q)%nat -> m < offset (nth (d - S j) l noStop)).
    { intros j Hj. pose proof (advanceWhile_before _ noStop (rev l) j Hj) as H.
      rewrite rev_nth in H by lia. fold d in H. apply Qltb_iff in H. lra. }
    assert (F4 : (q < d)%nat -> offset (nth (d - S q) l noStop) <= m).
    { intros Hj. assert (Hj' : (q < List.length (rev l))%nat) by (rewrite length_rev; exact Hj).
      pose proof (advanceWhile_stop _ noStop (rev l) Hj') as H. fold q in H.
      rewrite rev_nth in H by lia. fold d in H. apply Qltb_false in H. lra. }
    assert (Hpq1 : (p + q <= d)%nat).
    { destruct (Nat.le_gt_cases (p + q) d) as [H|H]; [exact H|]. exfalso.
      assert (Hi : (p - 1 < p)%nat) by lia. specialize (F1 _ Hi).
      assert (Hj : (d - p < q)%nat) by lia. specialize (F3 _ Hj).
      replace (d - S (d - p))%nat with (p - 1)%nat in F3 by lia. lra. }
    assert (Hpq2 : (d <= S (p + q))%nat).
    { destruct (Nat.le_gt_cases d (S (p + q))) as [H|H]; [exact H|]. exfalso.
      assert (H1 : (p < d)%nat) by lia. assert (H2 : (q < d)%nat) by lia.
      specialize (F2 H1). specialize (F4 H2).
      assert (H3 : (p < d - S q < d)%nat) by lia. specialize (HS _ _ H3). lra. }
    set (qL := advanceWhile (fun s => Qltb (1 - offset s) (m - 1)) (rev l)).
    assert (HqL : qL = 0%nat).
    { destruct qL as [|k] eqn:E; [reflexivity|]. exfalso.
      assert (H0 : (0 < advanceWhile (fun s => Qltb (1 - offset s) (m - 1)) (rev l))%nat)
        by (fold qL; lia).
      pose proof (advanceWhile_before _ noStop (rev l) 0 H0) as H.
      rewrite rev_nth in H by lia. fold d in H. apply Qltb_iff in H.
      specialize (HO (d - 1)%nat ltac:(lia)). lra. }
    rewrite HqL.
    assert (Hrev : m' - 1 == 1 - m) by lra.
    destruct (Nat.eq_dec p 0) as [P0|P0].
    - (* [m] at or below the first offset *)
      destruct (Nat.eq_dec q d) as [Q|Q].
      + nat_ifs. reflexivity.
      + nat_ifs.
        assert (E0 : offset (nth 0 l noStop) == m).
        { specialize (F2 ltac:(lia)). specialize (F4 ltac:(lia)).
          replace (d - S q)%nat with 0%nat in F4 by lia. rewrite P0 in F2. lra. }
        replace (d * 2 - (d + q))%nat with 1%nat by lia.
        replace (1 - 1)%nat with 0%nat by lia.
        symmetry. apply blend_end_reverse; [apply HS; lia | lra | apply HC; lia].
    - destruct (Nat.eq_dec p d) as [PD|PD].
      + (* [m] above every offset *)
        nat_ifs. replace (d + 0)%nat with d by lia. nat_ifs. reflexivity.
      + destruct (Nat.eq_dec (p + q) d) as [PQ|PQ].
        * nat_ifs.
          replace (d * 2 - (d + q))%nat with p by lia.
          replace (p - 1)%nat with (d * 2 - (d + q) - 1)%nat at 1 by lia.
          replace (d * 2 - (d + q))%nat with p by lia.
          apply blend_reverse_pair; [apply HS; lia | exact Hrev].
        * (* [m] is the offset of stop [p] *)
          assert (Ep : offset (nth p l noStop) == m).
          { specialize (F2 ltac:(lia)). specialize (F4 ltac:(lia)).
            replace (d - S q)%nat with p in F4 by lia. lra. }
          nat_ifs.
          rewrite blend_end_forward by first [apply HS; lia | lra | apply HC; lia].
          destruct (Nat.eq_dec q 0) as [Q0|Q0].
          -- nat_ifs. replace (d - 1)%nat with p by lia. reflexivity.
          -- nat_ifs.
             replace (d * 2 - (d + q))%nat with (S p) by lia.
             replace (S p - 1)%nat with p by lia.
             symmetry. apply blend_end_reverse; [apply HS; lia | lra | apply HC; lia].
Qed.

Lemma Qfloor_unit (x : Q) : 0 <= x -> x < 1 -> Qfloor x = 0%Z.
Proof.
  intros H0 H1. pose proof (Qfloor_le x) as Hle. pose proof (Qfloor_resp_le 0 x H0) as Hge.
  simpl in Hge. assert (Hlt : inject_Z (Qfloor x) < inject_Z 1) by (apply Qle_lt_trans with x; [exact Hle | exact H1]).
  rewrite <- Zlt_Qlt in Hlt. rewrite Z.div_1_r in Hge. lia.
Qed.

Lemma fmod2_small (t : Q) : 0 <= t -> t < 2 -> fmod t 2 == t.
Proof.
  intros H0 H2. unfold fmod, Qtrunc.
  rewrite (proj2 (Qle_bool_iff 0 (t / 2))) by (apply Qle_shift_div_l; lra).
  rewrite Qfloor_unit; [simpl; ring | apply Qle_shift_div_l; lra | apply Qlt_shift_div_r; lra].
Qed.

Lemma fmod2_two (t : Q) : t == 2 -> fmod t 2 == 0.
Proof.
  intros H. unfold fmod. rewrite (Qtrunc_comp (t / 2) 1) by (rewrite H; reflexivity).
  rewrite H. reflexivity.
Qed.

Lemma tColor_reflect_below2 (g : Gradient) (t op : Q) :
  spread g = ReflectSpread -> 0 <= t -> t < 2 -> tColor g t op = spreadColor g t op.
Proof.
  intros Hs H0 H2. unfold tColor, isPad. rewrite Hs. rewrite !andb_false_r.
  pose proof (fmod2_small t H0 H2) as E.
  rewrite (proj2 (Qltb_false (fmod t 2) 0)) by lra.
  now apply spreadColor_comp.
Qed.

Lemma tColor_reflect_at2 (g : Gradient) (t op : Q) :
  spread g = ReflectSpread -> t == 2 -> tColor g t op = spreadColor g 0 op.
Proof.
  intros Hs H. unfold tColor, isPad. rewrite Hs. rewrite !andb_false_r.
  pose proof (fmod2_two t H) as E.
  rewrite (proj2 (Qltb_false (fmod t 2) 0)) by lra.
  now apply spreadColor_comp.
Qed.

(** C5 (code bug): Reflect-mode sampling is not symmetric.  With offsets
    sorted ascending but a repeated offset 1/2 (red up to 1/2, blue from
    1/2), the samples at 1/2 and 3/2 differ (red against blue); every
    blend on this path has [tp = 1], so no rounding is involved and the
    float64 code returns the same colours.  With strictly increasing
    offsets but a translucent stop NRGBA(200,0,0,128) at offset 1/2, the
    red channel differs (200 against 100) between the samples at 1/2 and
    3/2. *)
Lemma reflect_not_symmetric :
  let red := NRGBA 255 0 0 255 in
  let blue := NRGBA 0 0 255 255 in
  let gdup := mkGradient [] [mkGradStop red 0 1; mkGradStop red (1#2) 1;
                             mkGradStop blue (1#2) 1; mkGradStop blue 1 1]
                         (0, 0, 1, 1) (1, 0, 0, 1, 0, 0) ReflectSpread ObjectBoundingBox false in
  let gtr := mkGradient [] [mkGradStop (NRGBA 200 0 0 128) (1#2) 1; mkGradStop blue 1 1]
                        (0, 0, 1, 1) (1, 0, 0, 1, 0, 0) ReflectSpread ObjectBoundingBox false in
  Sorted (fun a b => offset a <= offset b) (stops gdup) /\
  tColor gdup (1#2) 1 = NRGBA 255 0 0 255 /\
  tColor gdup (2 - (1#2)) 1 = NRGBA 0 0 255 255 /\
  Sorted (fun a b => offset a < offset b) (stops gtr) /\
  tColor gtr (1#2) 1 = NRGBA 200 0 0 255 /\
  tColor gtr (2 - (1#2)) 1 = NRGBA 100 0 0 255.
Proof.
  intros red blue gdup gtr.
  split; [repeat constructor; simpl; lra|].
  split; [vm_compute; reflexivity|]. split; [vm_compute; reflexivity|].
  split; [repeat constructor; simpl; lra|].
  split; vm_compute; reflexivity.
Qed.

(** ** Matrices and arc centers *)
Module GeometryFacts.
Import Stdlib.Reals.Reals Stdlib.micromega.Lra Stdlib.micromega.Psatz Geometry.
Local Open Scope R_scope.

(** [Scale], [Rotate], [SkewX] and [SkewY] compose on the right with
    their primitive matrix. *)
Lemma right_compositions (m : Matrix2D) (x y theta : R) :
  Scale m x y = Mult m (mkMatrix2D x 0 0 y 0 0) /\
  Rotate m theta = Mult m (mkMatrix2D (cos theta) (sin theta) (- sin theta) (cos theta) 0 0) /\
  SkewX m theta = Mult m (mkMatrix2D 1 0 (tan theta) 1 0 0) /\
  SkewY m theta = Mult m (mkMatrix2D 1 (tan theta) 0 1 0 0).
Proof. repeat split. Qed.

(** C2 (code bug): [Translate] composes on the left: [M.Translate(x,y)] is
    [T . M], which differs from the composition [M . T] the other methods
    build.  For [M = Identity.Scale(2,2)], [M.Translate(1,0)] has [E = 1]
    and maps (1,0) to (3,0), while [M . T] has [E = 2] and maps (1,0) to
    (4,0). *)
Theorem Translate_left_composition :
  (forall (m : Matrix2D) (x y : R), Translate m x y = Mult (translationMatrix x y) m) /\
  E (Translate (Scale Identity 2 2) 1 0) = 1 /\
  E (Mult (Scale Identity 2 2) (translationMatrix 1 0)) = 2 /\
  Transform (Translate (Scale Identity 2 2) 1 0) 1 0 = (3, 0) /\
  Transform (Mult (Scale Identity 2 2) (translationMatrix 1 0)) 1 0 = (4, 0) /\
  Translate (Scale Identity 2 2) 1 0 <> Mult (Scale Identity 2 2) (translationMatrix 1 0).
Proof.
  split.
  { intros [a b c d e f] x y. unfold Translate, Mult, translationMatrix; simpl.
    f_equal; ring. }
  unfold Translate, Scale, Mult, Transform, Identity, translationMatrix; simpl.
  repeat split; try ring; try (f_equal; ring).
  intros H. injection H as _ _ _ _ He _. lra.
Qed.

(** A consequence seen in [parseTransform]: the chain it builds for
    [rotate(a, cx, cy)] equals the plain rotation, whatever the center. *)
Lemma rotate_about_center_chain (m : Matrix2D) (theta cx cy : R) :
  Translate (Rotate (Translate m cx cy) theta) (- cx) (- cy) = Rotate m theta.
Proof.
  destruct m as [a b c d e f]. unfold Translate, Rotate, Mult; simpl. f_equal; ring.
Qed.




End GeometryFacts.

(* ------------------------------------------------------------------ *)
(** ** Matrices, fixed-point transforms and the ellipse parametrisation *)

Module TransformFacts.
Import Stdlib.Reals.Reals Stdlib.micromega.Lra Stdlib.micromega.Psatz Geometry Transforms.
Local Open Scope R_scope.

Lemma truncR_IZR (z : Z) : truncR (IZR z) = z.
Proof.
  unfold truncR. destruct (Rle_dec 0 (IZR z)) as [H|H].
  - symmetry. apply Int_part_spec. lra.
  - rewrite <- opp_IZR.
    assert (Hz : Int_part (IZR (- z)) = (- z)%Z) by (symmetry; apply Int_part_spec; lra).
    rewrite Hz. lia.
Qed.

Lemma Int26_6_of_IZR (o : R -> Z) (z : Z) :
  (-2147483648 <= z <= 2147483647)%Z -> Int26_6_of o (IZR z) = z.
Proof.
  intros Hz. unfold Int26_6_of. rewrite truncR_IZR.
  destruct Hz as [H1 H2].
  apply Z.leb_le in H1. apply Z.leb_le in H2. now rewrite H1, H2.
Qed.

(** [Transform] of a product applies the right factor first:
    [a.Mult(b).Transform(p) = a.Transform(b.Transform(p))]. *)
Theorem Transform_Mult (a b : Matrix2D) (x y : R) :
  Transform (Mult a b) x y =
  let '(x', y') := Transform b x y in Transform a x' y'.
Proof.
  destruct a as [a1 a2 a3 a4 a5 a6], b as [b1 b2 b3 b4 b5 b6].
  unfold Transform, Mult; simpl. f_equal; ring.
Qed.

(** [Mult] is associative. *)
Theorem Mult_assoc (a b c : Matrix2D) : Mult (Mult a b) c = Mult a (Mult b c).
Proof.
  destruct a as [a1 a2 a3 a4 a5 a6], b as [b1 b2 b3 b4 b5 b6],
    c as [c1 c2 c3 c4 c5 c6].
  unfold Mult; simpl. f_equal; ring.
Qed.

(** [Identity] is a unit of [Mult] on both sides and [Transform] by it
    leaves every point in place. *)
Theorem Identity_unit (m : Matrix2D) (x y : R) :
  Mult Identity m = m /\ Mult m Identity = m /\ Transform Identity x y = (x, y).
Proof.
  destruct m as [a b c d e f].
  unfold Mult, Identity, Transform; simpl.
  split; [|split]; f_equal; ring.
Qed.

(** Two rotations add their angles: [m.Rotate(a).Rotate(b) = m.Rotate(a + b)]. *)
Theorem Rotate_Rotate (m : Matrix2D) (a b : R) :
  Rotate (Rotate m a) b = Rotate m (a + b).
Proof.
  destruct m as [m1 m2 m3 m4 m5 m6].
  unfold Rotate, Mult; simpl. rewrite cos_plus, sin_plus. f_equal; ring.
Qed.

(** Two scalings multiply their factors:
    [m.Scale(x1, y1).Scale(x2, y2) = m.Scale(x1 * x2, y1 * y2)]. *)
Theorem Scale_Scale (m : Matrix2D) (x1 y1 x2 y2 : R) :
  Scale (Scale m x1 y1) x2 y2 = Scale m (x1 * x2) (y1 * y2).
Proof.
  destruct m as [m1 m2 m3 m4 m5 m6].
  unfold Scale, Mult; simpl. f_equal; ring.
Qed.

(** [TFixed] is [Transform] in 26.6 fixed-point units: the point is scaled
    to pixels by 1/64, transformed, scaled back by 64 and truncated. *)
Theorem TFixed_Transform (o : R -> Z) (m : Matrix2D) (x y : Z) :
  TFixed o m (x, y) =
  let '(u, v) := Transform m (IZR x / 64) (IZR y / 64) in
  (Int26_6_of o (u * 64), Int26_6_of o (v * 64)).
Proof.
  destruct m as [a b c d e f].
  unfold TFixed, Transform; simpl. f_equal; f_equal; field.
Qed.

Lemma TFixed_Identity (o : R -> Z) (x y : Z) :
  (-2147483648 <= x <= 2147483647)%Z -> (-2147483648 <= y <= 2147483647)%Z ->
  TFixed o Identity (x, y) = (x, y).
Proof.
  intros Hx Hy. unfold TFixed, Identity; simpl.
  replace (IZR x * 1 + IZR y * 0 + 0 * 64) with (IZR x) by ring.
  replace (IZR x * 0 + IZR y * 1 + 0 * 64) with (IZR y) by ring.
  now rewrite !Int26_6_of_IZR.
Qed.

(** After [MatrixAdder.Reset] the adder passes every command of a path
    unchanged to the embedded adder. *)
Theorem MatrixAdder_Reset_passthrough (o : R -> Z) (cmds : list PathCmd) :
  Forall cmdInRange cmds -> MatrixAdderReplay o ResetMatrix cmds = cmds.
Proof.
  unfold MatrixAdderReplay, ResetMatrix.
  induction 1 as [|cmd cmds Hc _ IH]; simpl; [reflexivity|].
  rewrite IH. f_equal. unfold cmdInRange in Hc.
  destruct cmd; unfold adderCmd; repeat match goal with
    | H : Forall _ (_ :: _) |- _ => inversion H; subst; clear H
    end; rewrite ?TFixed_Identity by assumption; reflexivity.
Qed.

Lemma MatrixAdder_Reset_passthrough_witness :
  Forall cmdInRange [Start 64 0; Line 128 (-64); Stop true] /\
  MatrixAdderReplay (fun _ => 0%Z) ResetMatrix [Start 64 0; Line 128 (-64); Stop true]
  = [Start 64 0; Line 128 (-64); Stop true].
Proof.
  assert (H : Forall cmdInRange [Start 64 0; Line 128 (-64); Stop true])
    by (repeat constructor; unfold cmdInRange; repeat constructor; lia).
  split; [exact H | apply (MatrixAdder_Reset_passthrough (fun _ => 0%Z)); exact H].
Defined.

(** [ellipsePointAt] with [sinTheta = sin rot] and [cosTheta = cos rot]
    gives points of the ellipse with radii [a], [b], rotated by [rot],
    centered at [(cx, cy)]: in the frame of its axes the point is
    [(a cos eta, b sin eta)]. *)
Theorem ellipsePointAt_on_ellipse (a b rot eta cx cy : R) :
  a <> 0 -> b <> 0 ->
  let '(px, py) := ellipsePointAt a b (sin rot) (cos rot) eta cx cy in
  ellipseFrame rot cx cy px py = (a * cos eta, b * sin eta) /\
  onEllipse a b rot cx cy px py.
Proof.
  intros Ha Hb. unfold ellipsePointAt, onEllipse, ellipseFrame.
  pose proof (sin2_cos2 rot) as Hr. pose proof (sin2_cos2 eta) as He.
  unfold Rsqr in Hr, He.
  assert (Hu : (cx + a * cos eta * cos rot - b * sin eta * sin rot - cx) * cos rot +
               (cy + a * cos eta * sin rot + b * sin eta * cos rot - cy) * sin rot
               = a * cos eta).
  { transitivity (a * cos eta * (sin rot * sin rot + cos rot * cos rot)); [ring|].
    rewrite Hr; ring. }
  assert (Hv : - (cx + a * cos eta * cos rot - b * sin eta * sin rot - cx) * sin rot +
               (cy + a * cos eta * sin rot + b * sin eta * cos rot - cy) * cos rot
               = b * sin eta).
  { transitivity (b * sin eta * (sin rot * sin rot + cos rot * cos rot)); [ring|].
    rewrite Hr; ring. }
  rewrite Hu, Hv. split; [reflexivity|].
  transitivity (sin eta * sin eta + cos eta * cos eta); [field; auto | exact He].
Qed.

Lemma ellipsePointAt_on_ellipse_witness :
  (1 <> 0 /\ 2 <> 0) /\
  let '(px, py) := ellipsePointAt 1 2 (sin 0) (cos 0) 0 0 0 in
  ellipseFrame 0 0 0 px py = (1 * cos 0, 2 * sin 0) /\ onEllipse 1 2 0 0 0 px py.
Proof.
  split; [split; lra|]. apply ellipsePointAt_on_ellipse; lra.
Defined.

(** [ellipsePrime] is the derivative in [eta] of [ellipsePointAt]: the
    tangent vectors of the Bézier approximation are the true ones. *)
Theorem ellipsePrime_derivative (a b s c eta cx cy : R) :
  derivable_pt_lim (fun e => fst (ellipsePointAt a b s c e cx cy)) eta
    (fst (ellipsePrime a b s c eta cx cy)) /\
  derivable_pt_lim (fun e => snd (ellipsePointAt a b s c e cx cy)) eta
    (snd (ellipsePrime a b s c eta cx cy)).
Proof.
  unfold ellipsePointAt, ellipsePrime; simpl. split.
  - apply (derivable_pt_lim_ext
      (fun e => fct_cte cx e + mult_real_fct (a * c) cos e - mult_real_fct (b * s) sin e)).
    { intros e. unfold fct_cte, mult_real_fct. ring. }
    replace (- (a * sin eta) * c - b * cos eta * s)
      with (0 + (a * c) * (- sin eta) - (b * s) * cos eta) by ring.
    apply (derivable_pt_lim_minus (fun e => fct_cte cx e + mult_real_fct (a * c) cos e)).
    + apply (derivable_pt_lim_plus (fct_cte cx)).
      * apply derivable_pt_lim_const.
      * apply derivable_pt_lim_scal. apply derivable_pt_lim_cos.
    + apply derivable_pt_lim_scal. apply derivable_pt_lim_sin.
  - apply (derivable_pt_lim_ext
      (fun e => fct_cte cy e + mult_real_fct (a * s) cos e + mult_real_fct (b * c) sin e)).
    { intros e. unfold fct_cte, mult_real_fct. ring. }
    replace (- (a * sin eta) * s + b * cos eta * c)
      with (0 + (a * s) * (- sin eta) + (b * c) * cos eta) by ring.
    apply (derivable_pt_lim_plus (fun e => fct_cte cy e + mult_real_fct (a * s) cos e)).
    + apply (derivable_pt_lim_plus (fct_cte cy)).
      * apply derivable_pt_lim_const.
      * apply derivable_pt_lim_scal. apply derivable_pt_lim_cos.
    + apply derivable_pt_lim_scal. apply derivable_pt_lim_sin.
Qed.

Lemma center_frame (rot sx sy cx1 cy0 x y : R) :
  ellipseFrame rot (cx1 * cos rot - cy0 * sin rot + sx) (cx1 * sin rot + cy0 * cos rot + sy) x y
  = ((x - sx) * cos rot + (y - sy) * sin rot - cx1,
     - (x - sx) * sin rot + (y - sy) * cos rot - cy0).
Proof.
  pose proof (sin2_cos2 rot) as Hr. unfold Rsqr in Hr. unfold ellipseFrame. f_equal.
  - transitivity ((x - sx) * cos rot + (y - sy) * sin rot - cx1 * (sin rot * sin rot + cos rot * cos rot));
      [ring | rewrite Hr; ring].
  - transitivity (- (x - sx) * sin rot + (y - sy) * cos rot - cy0 * (sin rot * sin rot + cos rot * cos rot));
      [ring | rewrite Hr; ring].
Qed.

Lemma on_ellipse_of_center (ra rb ra' rb' rot sx sy ex ey mx my cx0 cy0 : R) :
  ra <> 0 -> rb <> 0 -> rb' <> 0 -> ra' = ra * rb' / rb ->
  mx = ((ex - sx) * cos rot + (ey - sy) * sin rot) * (rb / ra) / 2 ->
  my = (- (ex - sx) * sin rot + (ey - sy) * cos rot) / 2 ->
  cx0 * cx0 + cy0 * cy0 = rb' * rb' ->
  (2 * mx - cx0) * (2 * mx - cx0) + (2 * my - cy0) * (2 * my - cy0) = rb' * rb' ->
  onEllipse ra' rb' rot (cx0 * (ra' / rb') * cos rot - cy0 * sin rot + sx)
    (cx0 * (ra' / rb') * sin rot + cy0 * cos rot + sy) sx sy /\
  onEllipse ra' rb' rot (cx0 * (ra' / rb') * cos rot - cy0 * sin rot + sx)
    (cx0 * (ra' / rb') * sin rot + cy0 * cos rot + sy) ex ey.
Proof.
  intros Ha Hb Hb' Hra Hmx Hmy H1 H2. unfold onEllipse. rewrite !center_frame.
  subst ra'. split.
  - transitivity ((cx0 * cx0 + cy0 * cy0) / (rb' * rb')).
    + field. repeat split; auto.
    + rewrite H1. field. auto.
  - transitivity (((2 * mx - cx0) * (2 * mx - cx0) + (2 * my - cy0) * (2 * my - cy0))
                  / (rb' * rb')).
    + rewrite Hmx, Hmy. field. repeat split; auto.
    + rewrite H2. field. auto.
Qed.

Lemma circle_points (mx my hr r : R) (b : bool) :
  (mx * mx + my * my) * (1 + hr * hr) = r * r ->
  let '(cx0, cy0) :=
    if b then (mx + my * hr, my - mx * hr) else (mx - my * hr, my + mx * hr) in
  cx0 * cx0 + cy0 * cy0 = r * r /\
  (2 * mx - cx0) * (2 * mx - cx0) + (2 * my - cy0) * (2 * my - cy0) = r * r.
Proof.
  intros H. destruct b; split; rewrite <- H; ring.
Qed.

(** [FindEllipseCenter] returns an ellipse through both end points of the
    arc: with the returned center and radii (and the rotation it was given),
    the start and the end point satisfy the equation of the ellipse, whether
    the radii were kept or grown. *)
Theorem FindEllipseCenter_endpoints_on_ellipse (ra rb rotX sx sy ex ey : R)
  (sweep small : bool) :
  ra <> 0 -> rb <> 0 -> (sx, sy) <> (ex, ey) ->
  let '(cx, cy, ra', rb') := FindEllipseCenter ra rb rotX sx sy ex ey sweep small in
  onEllipse ra' rb' rotX cx cy sx sy /\ onEllipse ra' rb' rotX cx cy ex ey.
Proof.
  intros Ha Hb Hne.
  pose proof (sin2_cos2 rotX) as Hcs. unfold Rsqr in Hcs.
  unfold FindEllipseCenter.
  remember (ellipseMid ra rb rotX sx sy ex ey) as mid eqn:Em.
  destruct mid as [mx my].
  unfold ellipseMid in Em. cbv zeta in Em. injection Em as Hmx Hmy.
  cbv beta iota zeta.
  assert (HL : 0 < mx * mx + my * my).
  { destruct (Rle_lt_or_eq_dec 0 (mx * mx + my * my)) as [Hpos|H0]; [nra | exact Hpos |].
    exfalso.
    assert (Hx : mx = 0) by nra. assert (Hy : my = 0) by nra.
    set (P := (ex - sx) * cos rotX + (ey - sy) * sin rotX) in *.
    set (Q := - (ex - sx) * sin rotX + (ey - sy) * cos rotX) in *.
    assert (HP : P = 2 * mx * (ra / rb)) by (rewrite Hmx; field; split; auto).
    assert (HQ : Q = 2 * my) by (rewrite Hmy; field).
    assert (E1 : ex - sx = P * cos rotX - Q * sin rotX).
    { transitivity ((ex - sx) * (sin rotX * sin rotX + cos rotX * cos rotX));
        [rewrite Hcs; ring | unfold P, Q; ring]. }
    assert (E2 : ey - sy = P * sin rotX + Q * cos rotX).
    { transitivity ((ey - sy) * (sin rotX * sin rotX + cos rotX * cos rotX));
        [rewrite Hcs; ring | unfold P, Q; ring]. }
    rewrite HP, HQ, Hx, Hy in E1, E2. apply Hne. f_equal; lra. }
  set (L := mx * mx + my * my) in *.
  destruct (Rlt_dec (rb * rb) L) as [Hlt|Hge].
  - assert (HsL : 0 < sqrt L) by (apply sqrt_lt_R0; exact HL).
    assert (HsL2 : sqrt L * sqrt L = L) by (apply sqrt_sqrt; lra).
    assert (Hc : (mx * mx + my * my) * (1 + 0 * 0) = sqrt L * sqrt L)
      by (rewrite HsL2; unfold L; ring).
    pose proof (circle_points mx my 0 (sqrt L) ((sweep && small) || (negb sweep && negb small)) Hc)
      as Hpts.
    destruct (Req_EM_T ra rb) as [Eq|Ne];
    destruct ((sweep && small) || (negb sweep && negb small)); destruct Hpts as [P1 P2];
      (apply on_ellipse_of_center with (ra := ra) (rb := rb) (mx := mx) (my := my);
       [auto | auto | lra | try (subst; field; auto) | exact Hmx | exact Hmy | exact P1 | exact P2]).
  - assert (Hd : 0 <= rb * rb - L) by lra.
    assert (Hc : (mx * mx + my * my) * (1 + (sqrt (rb * rb - L) / sqrt L) * (sqrt (rb * rb - L) / sqrt L))
                 = rb * rb).
    { assert (HsL : 0 < sqrt L) by (apply sqrt_lt_R0; exact HL).
      assert (HsL2 : sqrt L * sqrt L = L) by (apply sqrt_sqrt; lra).
      assert (Hs2 : sqrt (rb * rb - L) * sqrt (rb * rb - L) = rb * rb - L) by (apply sqrt_sqrt; lra).
      fold L.
      transitivity (L + L * (sqrt (rb * rb - L) * sqrt (rb * rb - L)) / (sqrt L * sqrt L));
        [field; lra|].
      rewrite HsL2, Hs2. field. lra. }
    pose proof (circle_points mx my (sqrt (rb * rb - L) / sqrt L) rb
                  ((sweep && small) || (negb sweep && negb small)) Hc) as Hpts.
    destruct ((sweep && small) || (negb sweep && negb small)); destruct Hpts as [P1 P2];
      (apply on_ellipse_of_center with (ra := ra) (rb := rb) (mx := mx) (my := my);
       [auto | auto | auto | field; auto | exact Hmx | exact Hmy | exact P1 | exact P2]).
Qed.

Lemma FindEllipseCenter_endpoints_on_ellipse_witness :
  (1 <> 0 /\ 2 <> 0 /\ (0, 0) <> (10, 0)) /\
  let '(cx, cy, ra', rb') := FindEllipseCenter 1 2 0 0 0 10 0 true false in
  onEllipse ra' rb' 0 cx cy 0 0 /\ onEllipse ra' rb' 0 cx cy 10 0.
Proof.
  assert (H : (0, 0) <> (10, 0)) by (intros E; injection E; lra).
  split; [repeat split; [lra | lra | exact H]|].
  apply FindEllipseCenter_endpoints_on_ellipse; [lra | lra | exact H].
Defined.

End TransformFacts.

(* ------------------------------------------------------------------ *)
(** ** The transform attribute ([IconCursor.parseTransform]) *)

Lemma list_ascii_of_string_app (s1 s2 : string) :
  list_ascii_of_string (s1 ++ s2) = (list_ascii_of_string s1 ++ list_ascii_of_string s2)%list.
Proof. induction s1 as [|c s1 IH]; simpl; [reflexivity | now rewrite IH]. Qed.

Lemma splitOn_cons (sep : ascii) (l : list ascii) :
  exists p ps, splitOn sep l = p :: ps.
Proof.
  destruct l as [|c r]; simpl; [eauto|].
  destruct (c =? sep)%char; [eauto|].
  destruct (splitOn sep r); eauto.
Qed.

Lemma splitOn_app (sep : ascii) (l1 l2 : list ascii) :
  splitOn sep (l1 ++ sep :: l2) = (splitOn sep l1 ++ splitOn sep l2)%list.
Proof.
  induction l1 as [|c l1 IH]; simpl.
  - now rewrite Ascii.eqb_refl.
  - destruct (c =? sep)%char; [now rewrite IH|].
    rewrite IH. destruct (splitOn_cons sep l1) as (p & ps & E). now rewrite E.
Qed.

Lemma splitOn_absent (sep : ascii) (l : list ascii) :
  existsb (fun x => (x =? sep)%char) l = false -> splitOn sep l = [l].
Proof.
  induction l as [|c l IH]; simpl; [reflexivity|].
  intros H. apply orb_false_iff in H as [H1 H2]. rewrite H1, IH by exact H2. reflexivity.
Qed.

Lemma dropSpaces_keep (l1 : list ascii) (c : ascii) (l2 : list ascii) :
  isSpace c = false ->
  match l1 with x :: _ => isSpace x = false | [] => True end ->
  dropSpaces (l1 ++ c :: l2) = (l1 ++ c :: l2)%list.
Proof. intros Hc H1. destruct l1 as [|x l1]; simpl; [now rewrite Hc | now rewrite H1]. Qed.

Lemma TrimSpace_around_paren (name args : string) :
  startsWithSpace name = false -> endsWithSpace args = false ->
  TrimSpace (name ++ String "(" args) = (name ++ String "(" args)%string.
Proof.
  intros Hn Ha. unfold TrimSpace.
  rewrite list_ascii_of_string_app. simpl.
  unfold startsWithSpace in Hn. unfold endsWithSpace in Ha.
  rewrite dropSpaces_keep by (reflexivity || (destruct (list_ascii_of_string name); auto)).
  rewrite rev_app_distr. simpl. rewrite <- app_assoc. simpl.
  rewrite dropSpaces_keep by (reflexivity || (destruct (rev (list_ascii_of_string args)); auto)).
  rewrite rev_app_distr, rev_involutive. simpl. rewrite rev_involutive, <- app_assoc.
  change (["("%char] ++ list_ascii_of_string args)%list
    with (list_ascii_of_string (String "(" args)).
  rewrite <- list_ascii_of_string_app. apply string_of_list_ascii_of_string.
Qed.

Section TransformProofs.
Import Stdlib.Reals.Reals Stdlib.micromega.Lra Geometry Transforms.
Local Open Scope R_scope.

Variable ParseFloat : string -> F64 * option PErr.
Variable toR : F64 -> R.

Lemma transformLoop_app (l1 l2 : list string) (m : Matrix2D) :
  transformLoop ParseFloat toR (l1 ++ l2) m =
  match transformLoop ParseFloat toR l1 m with
  | (m', None) => transformLoop ParseFloat toR l2 m'
  | r => r
  end.
Proof.
  revert m; induction l1 as [|t l1 IH]; intros m; simpl; [reflexivity|].
  destruct (String.length (TrimSpace t) =? 0)%nat; [apply IH|].
  destruct (transformItem ParseFloat toR (TrimSpace t) m) as [m' [e|]]; [reflexivity | apply IH].
Qed.

(** A transform list split at a ")" is parsed as its first part followed by
    its second, from the matrix the first part leaves; an error in the first
    part ends the parse with its result. *)
Theorem parseTransform_concat (s1 s2 : string) (m : Matrix2D) :
  parseTransform ParseFloat toR (s1 ++ String ")" s2) m =
  match parseTransform ParseFloat toR s1 m with
  | (m', None) => parseTransform ParseFloat toR s2 m'
  | r => r
  end.
Proof.
  unfold parseTransform, Split. rewrite list_ascii_of_string_app. simpl.
  rewrite splitOn_app, map_app. apply transformLoop_app.
Qed.

Lemma parseTransform_single (name args : string) (m : Matrix2D) :
  hasByte "(" name = false -> hasByte ")" name = false ->
  hasByte "(" args = false -> hasByte ")" args = false ->
  startsWithSpace name = false -> endsWithSpace args = false ->
  parseTransform ParseFloat toR (name ++ "(" ++ args ++ ")") m =
  transformItem ParseFloat toR (name ++ "(" ++ args) m /\
  Split (name ++ "(" ++ args) "(" = [name; args].
Proof.
  intros Hn1 Hn2 Ha1 Ha2 Hs He. unfold hasByte in *.
  assert (Hsplit : Split (name ++ "(" ++ args) "(" = [name; args]).
  { unfold Split. rewrite list_ascii_of_string_app. simpl.
    rewrite splitOn_app, (splitOn_absent _ _ Hn1), (splitOn_absent _ _ Ha1). simpl.
    now rewrite !string_of_list_ascii_of_string. }
  split; [|exact Hsplit].
  unfold parseTransform, Split.
  replace (name ++ "(" ++ args ++ ")")%string with ((name ++ String "(" args) ++ ")")%string
    by (rewrite string_append_assoc; reflexivity).
  rewrite list_ascii_of_string_app. simpl.
  rewrite (splitOn_app ")" _ []).
  rewrite (splitOn_absent ")").
  2:{ rewrite list_ascii_of_string_app. simpl. rewrite existsb_app. simpl.
      now rewrite Hn2, Ha2. }
  simpl. rewrite string_of_list_ascii_of_string.
  rewrite TrimSpace_around_paren by assumption.
  replace (String.length (name ++ String "(" args) =? 0)%nat with false
    by (symmetry; apply Nat.eqb_neq; clear; induction name; simpl; lia).
  destruct (transformItem ParseFloat toR (name ++ String "(" args) m) as [m' [e|]];
    reflexivity.
Qed.

Lemma validTransform_0 (nm : string) : validTransform nm 0 = false.
Proof. unfold validTransform. simpl. now rewrite !andb_false_r. Qed.

Lemma GetPoints_empty (PF : string -> F64 * option PErr) : GetPoints PF "" = ([], None).
Proof. reflexivity. Qed.

(** A single transform [name(args)] is accepted exactly for the names
    rotate, translate, skewX, skewY, scale and matrix (in any case, around
    white space) with 1 or 3, 1 or 2, 1, 1, 1 or 2, and 6 numbers; any other
    name or number count gives [paramMismatchError] with the matrix of the
    style stack unchanged. *)
Theorem parseTransform_single_valid (name args : string) (m : Matrix2D) (pts : list F64) :
  hasByte "(" name = false -> hasByte ")" name = false ->
  hasByte "(" args = false -> hasByte ")" args = false ->
  startsWithSpace name = false -> endsWithSpace args = false ->
  GetPoints ParseFloat args = (pts, None) ->
  (validTransform (lowerString (TrimSpace name)) (List.length pts) = true ->
   exists m', parseTransform ParseFloat toR (name ++ "(" ++ args ++ ")") m = (m', None)) /\
  (validTransform (lowerString (TrimSpace name)) (List.length pts) = false ->
   parseTransform ParseFloat toR (name ++ "(" ++ args ++ ")") m = (m, Some IconParamMismatch)).
Proof.
  intros Hn1 Hn2 Ha1 Ha2 Hs He Hg.
  destruct (parseTransform_single name args m Hn1 Hn2 Ha1 Ha2 Hs He) as [E S].
  rewrite E. unfold transformItem. rewrite S.
  destruct args as [|a0 args'].
  - rewrite GetPoints_empty in Hg. injection Hg as <-. rewrite validTransform_0.
    split; [discriminate | reflexivity].
  - simpl (String.length (String a0 args') <? 1)%nat. cbv iota. rewrite Hg.
    remember (lowerString (TrimSpace name)) as nm eqn:Enm.
    remember (List.length pts) as ln eqn:Eln.
    unfold validTransform.
    destruct (String.eqb_spec nm "rotate") as [->|?]; simpl;
    [| destruct (String.eqb_spec nm "translate") as [->|?]; simpl;
    [| destruct (String.eqb_spec nm "skewx") as [->|?]; simpl;
    [| destruct (String.eqb_spec nm "skewy") as [->|?]; simpl;
    [| destruct (String.eqb_spec nm "scale") as [->|?]; simpl;
    [| destruct (String.eqb_spec nm "matrix") as [->|?]; simpl]]]]].
    all: split; intros Hv.
    all: destruct (ln =? 1)%nat, (ln =? 2)%nat, (ln =? 3)%nat, (ln =? 6)%nat.
    all: simpl in *; try discriminate; try reflexivity; eexists; reflexivity.
Qed.

(** Over the reals, [rotate(a, cx, cy)] gives the same matrix as
    [rotate(a)]: the center is ignored, because [Translate] composes on the
    left, so the two translations around the rotation cancel.  (In float64
    the translations cancel only up to the rounding of [(E + cx) - cx].) *)
Theorem parseTransform_rotate_center_ignored (args : string) (m : Matrix2D) (a x y : F64) :
  hasByte "(" args = false -> hasByte ")" args = false -> endsWithSpace args = false ->
  GetPoints ParseFloat args = ([a; x; y], None) ->
  parseTransform ParseFloat toR ("rotate(" ++ args ++ ")") m =
  (Rotate m (toR a * PI / 180), None).
Proof.
  intros Ha1 Ha2 He Hg.
  destruct (parseTransform_single "rotate" args m eq_refl eq_refl Ha1 Ha2 eq_refl He) as [E S].
  change ("rotate(" ++ args ++ ")")%string with ("rotate" ++ "(" ++ args ++ ")")%string.
  rewrite E. unfold transformItem. rewrite S.
  destruct args as [|a0 args']; [discriminate Hg|].
  simpl (String.length (String a0 args') <? 1)%nat. cbv iota. rewrite Hg. simpl.
  f_equal. destruct m as [m1 m2 m3 m4 m5 m6].
  unfold Translate, Rotate, Mult; simpl. f_equal; ring.
Qed.

(** [scale(s)] with one number scales y by 0, not by [s]: the resulting
    matrix is [m.Scale(s, 0)] and maps points that differ only in y to
    the same point. *)
Theorem parseTransform_scale_one_arg (args : string) (m : Matrix2D) (s : F64) :
  hasByte "(" args = false -> hasByte ")" args = false -> endsWithSpace args = false ->
  GetPoints ParseFloat args = ([s], None) ->
  exists r, parseTransform ParseFloat toR ("scale(" ++ args ++ ")") m = (r, None) /\
    r = Scale m (toR s) 0 /\
    forall x y1 y2, Transform r x y1 = Transform r x y2.
Proof.
  intros Ha1 Ha2 He Hg.
  destruct (parseTransform_single "scale" args m eq_refl eq_refl Ha1 Ha2 eq_refl He) as [E S].
  change ("scale(" ++ args ++ ")")%string with ("scale" ++ "(" ++ args ++ ")")%string.
  rewrite E. unfold transformItem. rewrite S.
  destruct args as [|a0 args']; [discriminate Hg|].
  simpl (String.length (String a0 args') <? 1)%nat. cbv iota. rewrite Hg. simpl.
  eexists; split; [reflexivity|]. split; [reflexivity|].
  intros x y1 y2. destruct m as [m1 m2 m3 m4 m5 m6].
  unfold Transform, Scale, Mult; simpl. f_equal; ring.
Qed.

Lemma splitOn_pieces (sep : ascii) (P : ascii -> bool) (l : list ascii) :
  forallb (fun c => P c || (c =? sep)%char) l = true ->
  Forall (fun p => forallb P p = true) (splitOn sep l).
Proof.
  induction l as [|c r IH]; simpl; intros H; [repeat constructor|].
  apply andb_true_iff in H as [Hc Hr]. specialize (IH Hr).
  destruct (c =? sep)%char; [constructor; [reflexivity | exact IH]|].
  rewrite orb_false_r in Hc.
  destruct (splitOn sep r) as [|p ps]; [repeat constructor; simpl; now rewrite Hc|].
  inversion IH as [|? ? Hp Hps]; subst.
  constructor; [simpl; now rewrite Hc, Hp | exact Hps].
Qed.

Lemma dropSpaces_all (p : list ascii) : forallb isSpace p = true -> dropSpaces p = [].
Proof.
  induction p as [|c p IH]; simpl; [reflexivity|].
  intros H. apply andb_true_iff in H as [Hc Hp]. rewrite Hc. now apply IH.
Qed.

(** A transform attribute made only of white space and ")" (the empty
    string among them) leaves the matrix of the style stack as it is and
    gives no error. *)
Theorem parseTransform_blank (v : string) (m : Matrix2D) :
  forallb (fun c => isSpace c || (c =? ")")%char) (list_ascii_of_string v) = true ->
  parseTransform ParseFloat toR v m = (m, None).
Proof.
  intros H. unfold parseTransform, Split.
  pose proof (splitOn_pieces ")" isSpace _ H) as Hp.
  induction Hp as [|p ps Hp _ IH]; simpl; [reflexivity|].
  unfold TrimSpace. rewrite list_ascii_of_string_of_list_ascii, (dropSpaces_all p Hp).
  simpl. exact IH.
Qed.

End TransformProofs.

Module TransformWitnesses.
Import Stdlib.Reals.Reals Geometry Transforms.
Local Open Scope R_scope.

Lemma parseTransform_single_valid_witness :
  (hasByte "(" "Rotate" = false /\ hasByte ")" "Rotate" = false /\
   hasByte "(" "30" = false /\ hasByte ")" "30" = false /\
   startsWithSpace "Rotate" = false /\ endsWithSpace "30" = false /\
   GetPoints parseFloat64 "30" = ([Fin 30], None)) /\
  ((validTransform (lowerString (TrimSpace "Rotate")) (List.length [Fin 30]) = true ->
    exists m', parseTransform parseFloat64 (fun _ => 1) ("Rotate" ++ "(" ++ "30" ++ ")") Identity
               = (m', None)) /\
   (validTransform (lowerString (TrimSpace "Rotate")) (List.length [Fin 30]) = false ->
    parseTransform parseFloat64 (fun _ => 1) ("Rotate" ++ "(" ++ "30" ++ ")") Identity
    = (Identity, Some IconParamMismatch))).
Proof.
  split; [repeat split; vm_compute; reflexivity|].
  apply parseTransform_single_valid; vm_compute; reflexivity.
Defined.

Lemma parseTransform_rotate_center_ignored_witness :
  (hasByte "(" "30,10,20" = false /\ hasByte ")" "30,10,20" = false /\
   endsWithSpace "30,10,20" = false /\
   GetPoints parseFloat64 "30,10,20" = ([Fin 30; Fin 10; Fin 20], None)) /\
  parseTransform parseFloat64 (fun _ => 1) ("rotate(" ++ "30,10,20" ++ ")") Identity =
  (Rotate Identity (1 * PI / 180), None).
Proof.
  split; [repeat split; vm_compute; reflexivity|].
  apply (parseTransform_rotate_center_ignored parseFloat64 (fun _ => 1) "30,10,20" Identity
           (Fin 30) (Fin 10) (Fin 20)); vm_compute; reflexivity.
Defined.

Lemma parseTransform_scale_one_arg_witness :
  (hasByte "(" "2" = false /\ hasByte ")" "2" = false /\ endsWithSpace "2" = false /\
   GetPoints parseFloat64 "2" = ([Fin 2], None)) /\
  exists r, parseTransform parseFloat64 (fun _ => 2) ("scale(" ++ "2" ++ ")") Identity = (r, None) /\
    r = Scale Identity 2 0 /\
    forall x y1 y2, Transform r x y1 = Transform r x y2.
Proof.
  split; [repeat split; vm_compute; reflexivity|].
  apply (parseTransform_scale_one_arg parseFloat64 (fun _ => 2) "2" Identity (Fin 2));
    vm_compute; reflexivity.
Defined.

Lemma parseTransform_blank_witness :
  forallb (fun c => isSpace c || (c =? ")")%char) (list_ascii_of_string " ) )") = true /\
  parseTransform parseFloat64 (fun _ => 0) " ) )" Identity = (Identity, None).
Proof.
  split; [reflexivity|]. apply parseTransform_blank. reflexivity.
Defined.

End TransformWitnesses.

(* ------------------------------------------------------------------ *)
(** ** Colour strings *)

Lemma u8_mod (v : Z) : u8 v = (v mod 256)%Z.
Proof. unfold u8. change 255%Z with (Z.ones 8). rewrite Z.land_ones by lia. reflexivity. Qed.

Lemma u8_small (v : Z) : (0 <= v < 256)%Z -> u8 v = v.
Proof. intros H. rewrite u8_mod. apply Z.mod_small. exact H. Qed.

Ltac zbools :=
  repeat match goal with
  | H : (_ && _) = true |- _ => apply andb_true_iff in H as [? ?]
  | H : (_ <=? _)%Z = true |- _ => apply Z.leb_le in H
  | H : (_ <? _)%Z = true |- _ => apply Z.ltb_lt in H
  | H : (_ <=? _)%Z = false |- _ => apply Z.leb_gt in H
  | H : (_ <? _)%Z = false |- _ => apply Z.ltb_ge in H
  end.

Lemma hexVal_spec (c : ascii) (d : Z) :
  hexVal c = Some d -> digitVal c = Some d /\ (0 <= d < 16)%Z.
Proof.
  unfold hexVal. destruct (digitVal c) as [d'|] eqn:Ed; [|discriminate].
  destruct (d' <? 16)%Z eqn:Elt; [|discriminate]. intros H. injection H as <-.
  split; [reflexivity|]. zbools.
  revert Ed. unfold digitVal. cbv zeta.
  destruct ((48 <=? Z.of_nat (nat_of_ascii c)) && (Z.of_nat (nat_of_ascii c) <=? 57))%Z eqn:E1.
  - intros H. injection H as <-. zbools. lia.
  - destruct ((97 <=? Z.lor (Z.of_nat (nat_of_ascii c)) 32)
              && (Z.lor (Z.of_nat (nat_of_ascii c)) 32 <=? 122))%Z eqn:E2; [|discriminate].
    intros H. injection H as <-. zbools. lia.
Qed.

Lemma ParseUint_hex2 (c1 c2 : ascii) (d1 d2 : Z) :
  hexVal c1 = Some d1 -> hexVal c2 = Some d2 ->
  ParseUint (String c1 (String c2 EmptyString)) 16 8 = ((16 * d1 + d2)%Z, None).
Proof.
  intros H1 H2. apply hexVal_spec in H1 as [H1 R1]. apply hexVal_spec in H2 as [H2 R2].
  remember (16 * d1 + d2)%Z as v eqn:Ev.
  unfold ParseUint. replace (maxUint64 / 16 + 1)%Z with 1152921504606846976%Z by reflexivity.
  simpl. rewrite H1, H2.
  repeat match goal with
  | |- context [if ?b then _ else _] => destruct b eqn:?; zbools; try lia
  end.
  subst v. apply (f_equal2 pair); [ring | reflexivity].
Qed.

(** [ParseSVGColorNum] reads six hexadecimal digits (in either case) after
    the "#" as the red, green and blue bytes. *)
Lemma ParseSVGColorNum_hex_digits (h1 h2 h3 h4 h5 h6 : ascii) (d1 d2 d3 d4 d5 d6 : Z) :
  hexVal h1 = Some d1 -> hexVal h2 = Some d2 -> hexVal h3 = Some d3 ->
  hexVal h4 = Some d4 -> hexVal h5 = Some d5 -> hexVal h6 = Some d6 ->
  ParseSVGColorNum (String "#" (string_of_list_ascii [h1; h2; h3; h4; h5; h6]))
  = Normal ((16 * d1 + d2)%Z, (16 * d3 + d4)%Z, (16 * d5 + d6)%Z, None).
Proof.
  intros H1 H2 H3 H4 H5 H6.
  unfold ParseSVGColorNum, TrimPrefix. cbn -[ParseUint].
  rewrite (ParseUint_hex2 h1 h2 d1 d2 H1 H2), (ParseUint_hex2 h3 h4 d3 d4 H3 H4),
    (ParseUint_hex2 h5 h6 d5 d6 H5 H6).
  apply hexVal_spec in H1 as [_ R1]. apply hexVal_spec in H2 as [_ R2].
  apply hexVal_spec in H3 as [_ R3]. apply hexVal_spec in H4 as [_ R4].
  apply hexVal_spec in H5 as [_ R5]. apply hexVal_spec in H6 as [_ R6].
  rewrite !u8_small by lia. reflexivity.
Qed.

(** With a digit count other than six, [ParseSVGColorNum] reads only the
    first three digits, each doubled ("#abc" is "#aabbcc", and so is
    "#abcd"); the rest of the string is ignored. *)
Theorem ParseSVGColorNum_not_six (h1 h2 h3 : ascii) (rest : list ascii) (d1 d2 d3 : Z) :
  List.length rest <> 3%nat ->
  hexVal h1 = Some d1 -> hexVal h2 = Some d2 -> hexVal h3 = Some d3 ->
  ParseSVGColorNum (String "#" (string_of_list_ascii (h1 :: h2 :: h3 :: rest)))
  = Normal ((17 * d1)%Z, (17 * d2)%Z, (17 * d3)%Z, None).
Proof.
  intros Hl H1 H2 H3.
  unfold ParseSVGColorNum, TrimPrefix. cbn -[ParseUint].
  rewrite !list_ascii_of_string_of_list_ascii.
  destruct (Nat.eqb_spec (List.length rest) 3) as [E|_]; [contradiction|].
  cbn -[ParseUint].
  rewrite (ParseUint_hex2 h1 h1 d1 d1 H1 H1), (ParseUint_hex2 h2 h2 d2 d2 H2 H2),
    (ParseUint_hex2 h3 h3 d3 d3 H3 H3).
  apply hexVal_spec in H1 as [_ R1]. apply hexVal_spec in H2 as [_ R2].
  apply hexVal_spec in H3 as [_ R3].
  rewrite !u8_small by lia.
  replace (16 * d1 + d1)%Z with (17 * d1)%Z by ring.
  replace (16 * d2 + d2)%Z with (17 * d2)%Z by ring.
  replace (16 * d3 + d3)%Z with (17 * d3)%Z by ring.
  reflexivity.
Qed.

(** [ParseSVGColorNum] panics (index out of range) when fewer than three
    bytes follow the "#". *)
Theorem ParseSVGColorNum_short_panics (l : list ascii) :
  (List.length l < 3)%nat ->
  ParseSVGColorNum (String "#" (string_of_list_ascii l)) = RuntimePanic.
Proof.
  intros H. destruct l as [|a [|b [|c l]]]; simpl in H; try lia; reflexivity.
Qed.

Lemma isNumber_facts (c : ascii) : isNumber c = true ->
  isSpace c = false /\ (c =? "%")%char = false /\ (c =? "-")%char = false /\
  (c =? "+")%char = false /\ (c =? ",")%char = false /\
  (0 <= Z.of_nat (nat_of_ascii c) - 48 <= 9)%Z.
Proof.
  intros H. unfold isNumber in H. cbv zeta in H. apply andb_true_iff in H as [H1 H2].
  apply Nat.leb_le in H1. apply Nat.leb_le in H2.
  repeat split.
  - unfold isSpace. cbv zeta. apply orb_false_iff. split; [apply Nat.eqb_neq; lia|].
    apply andb_false_iff. right. apply Nat.leb_gt. lia.
  - destruct (Ascii.eqb_spec c "%") as [->|]; [cbv in H1; lia | reflexivity].
  - destruct (Ascii.eqb_spec c "-") as [->|]; [cbv in H1; lia | reflexivity].
  - destruct (Ascii.eqb_spec c "+") as [->|]; [cbv in H1; lia | reflexivity].
  - destruct (Ascii.eqb_spec c ",") as [->|]; [cbv in H1; lia | reflexivity].
  - lia.
  - lia.
Qed.

Lemma dropSpaces_none (l : list ascii) :
  forallb (fun c => negb (isSpace c)) l = true -> dropSpaces l = l.
Proof.
  destruct l as [|c l]; simpl; [reflexivity|].
  intros H. apply andb_true_iff in H as [H _]. now destruct (isSpace c).
Qed.

Lemma TrimSpace_none (l : list ascii) :
  forallb (fun c => negb (isSpace c)) l = true ->
  TrimSpace (string_of_list_ascii l) = string_of_list_ascii l.
Proof.
  intros H. unfold TrimSpace. rewrite list_ascii_of_string_of_list_ascii.
  rewrite (dropSpaces_none l H), dropSpaces_none, rev_involutive; [reflexivity|].
  apply forallb_forall. intros x Hx. apply in_rev in Hx.
  rewrite forallb_forall in H. now apply H.
Qed.

Lemma digits_nospace (l : list ascii) :
  forallb isNumber l = true -> forallb (fun c => negb (isSpace c)) l = true.
Proof.
  rewrite !forallb_forall. intros H x Hx.
  destruct (isNumber_facts x (H x Hx)) as [-> _]. reflexivity.
Qed.

Lemma atoiDigits_fold (l : list ascii) (n : Z) :
  forallb isNumber l = true ->
  atoiDigits l n =
  Some (fold_left (fun acc c => acc * 10 + (Z.of_nat (nat_of_ascii c) - 48))%Z l n).
Proof.
  revert n. induction l as [|c l IH]; intros n H; simpl; [reflexivity|].
  simpl in H. apply andb_true_iff in H as [Hc Hl].
  destruct (isNumber_facts c Hc) as (_ & _ & _ & _ & _ & Hd).
  rewrite Z.mod_small by lia.
  replace (9 <? Z.of_nat (nat_of_ascii c) - 48)%Z with false
    by (symmetry; apply Z.ltb_ge; lia).
  now apply IH.
Qed.

Lemma fold_digits_range (l : list ascii) (n : Z) :
  forallb isNumber l = true -> (0 <= n)%Z ->
  (n * 10 ^ Z.of_nat (List.length l)
   <= fold_left (fun acc c => acc * 10 + (Z.of_nat (nat_of_ascii c) - 48))%Z l n
   < (n + 1) * 10 ^ Z.of_nat (List.length l))%Z.
Proof.
  revert n. induction l as [|c l IH]; intros n H Hn; cbn [List.length fold_left]; [lia|].
  simpl in H. apply andb_true_iff in H as [Hc Hl].
  destruct (isNumber_facts c Hc) as (_ & _ & _ & _ & _ & Hd).
  specialize (IH (n * 10 + (Z.of_nat (nat_of_ascii c) - 48))%Z Hl ltac:(lia)).
  rewrite Nat2Z.inj_succ, Z.pow_succ_r by lia.
  assert (0 < 10 ^ Z.of_nat (List.length l))%Z by (apply Z.pow_pos_nonneg; lia).
  nia.
Qed.

Lemma decValue_range (l : list ascii) :
  forallb isNumber l = true ->
  (0 <= decValue l < 10 ^ Z.of_nat (List.length l))%Z.
Proof.
  intros H. pose proof (fold_digits_range l 0 H ltac:(lia)) as R.
  unfold decValue. lia.
Qed.

Lemma length_string_of_list_ascii (l : list ascii) :
  String.length (string_of_list_ascii l) = List.length l.
Proof. induction l as [|c l IH]; simpl; [reflexivity | now rewrite IH]. Qed.

Lemma Atoi_digits (ds : list ascii) :
  ds <> [] -> forallb isNumber ds = true -> (List.length ds < 19)%nat ->
  Atoi (string_of_list_ascii ds) = (decValue ds, None).
Proof.
  intros Hne H Hlen. unfold Atoi. rewrite length_string_of_list_ascii.
  destruct ds as [|c r]; [contradiction|].
  replace ((0 <? List.length (c :: r)) && (List.length (c :: r) <? 19))%nat with true
    by (symmetry; apply andb_true_iff; split; apply Nat.ltb_lt; simpl in *; lia).
  pose proof H as H'. simpl in H'. apply andb_true_iff in H' as [Hc _].
  destruct (isNumber_facts c Hc) as (_ & _ & Hm & Hp & _).
  cbn [string_of_list_ascii]. rewrite Hm, Hp.
  change (list_ascii_of_string (String c (string_of_list_ascii r)))
    with (c :: list_ascii_of_string (string_of_list_ascii r)).
  rewrite list_ascii_of_string_of_list_ascii.
  rewrite (atoiDigits_fold (c :: r) 0 H). reflexivity.
Qed.

Lemma Atoi_neg_digits (ds : list ascii) :
  ds <> [] -> forallb isNumber ds = true -> (List.length ds < 18)%nat ->
  Atoi (String "-" (string_of_list_ascii ds)) = ((- decValue ds)%Z, None).
Proof.
  intros Hne H Hlen. unfold Atoi. cbn [String.length].
  rewrite length_string_of_list_ascii.
  replace ((0 <? S (List.length ds)) && (S (List.length ds) <? 19))%nat with true
    by (symmetry; apply andb_true_iff; split; apply Nat.ltb_lt; lia).
  cbn iota beta. change ("-" =? "-")%char with true. cbv iota.
  rewrite list_ascii_of_string_of_list_ascii.
  destruct ds as [|c r]; [contradiction|].
  rewrite (atoiDigits_fold (c :: r) 0 H). reflexivity.
Qed.

(** [parseColorValue] on a component of one to eighteen decimal digits
    returns its value, capped at 255, and no error. *)
Theorem parseColorValue_digits (ds : list ascii) :
  ds <> [] -> forallb isNumber ds = true -> (List.length ds < 19)%nat ->
  parseColorValue (string_of_list_ascii ds) = Normal (Z.min (decValue ds) 255, None).
Proof.
  intros Hne H Hlen.
  pose proof (decValue_range ds H) as R.
  destruct (exists_last Hne) as (ds' & c & E).
  unfold parseColorValue. rewrite list_ascii_of_string_of_list_ascii.
  rewrite E at 1. rewrite rev_unit.
  assert (Hc : isNumber c = true).
  { rewrite forallb_forall in H. apply H. rewrite E. apply in_or_app. right. now left. }
  destruct (isNumber_facts c Hc) as (_ & -> & _).
  rewrite (TrimSpace_none ds (digits_nospace ds H)), (Atoi_digits ds Hne H Hlen).
  f_equal. f_equal.
  destruct (255 <? decValue ds)%Z eqn:Ed; zbools.
  - rewrite Z.min_r by lia. reflexivity.
  - rewrite Z.min_l by lia. apply u8_small. lia.
Qed.

(** [parseColorValue] on a minus sign followed by one to seventeen
    digits returns no error and the negative value wrapped into a byte
    (Go's [uint8(n)] conversion): "-1" gives 255. *)
Theorem parseColorValue_negative (ds : list ascii) :
  ds <> [] -> forallb isNumber ds = true -> (List.length ds < 18)%nat ->
  parseColorValue (String "-" (string_of_list_ascii ds))
  = Normal (((- decValue ds) mod 256)%Z, None).
Proof.
  intros Hne H Hlen.
  pose proof (decValue_range ds H) as R.
  destruct (exists_last Hne) as (ds' & c & E).
  unfold parseColorValue.
  change (String "-" (string_of_list_ascii ds)) with (string_of_list_ascii ("-"%char :: ds)).
  rewrite list_ascii_of_string_of_list_ascii.
  rewrite E at 1. rewrite app_comm_cons, rev_unit.
  assert (Hc : isNumber c = true).
  { rewrite forallb_forall in H. apply H. rewrite E. apply in_or_app. right. now left. }
  destruct (isNumber_facts c Hc) as (_ & -> & _).
  rewrite TrimSpace_none.
  2:{ simpl. apply digits_nospace, H. }
  cbn [string_of_list_ascii]. rewrite (Atoi_neg_digits ds Hne H Hlen).
  replace (255 <? - decValue ds)%Z with false by (symmetry; apply Z.ltb_ge; lia).
  rewrite u8_mod. reflexivity.
Qed.

(** [parseColorValue] on one to sixteen digits followed by '%' returns
    [n * 255 / 100] (integer division) wrapped into a byte, and no error:
    "100%" gives 255, and above 100% the value wraps. *)
Theorem parseColorValue_percent (ds : list ascii) :
  ds <> [] -> forallb isNumber ds = true -> (List.length ds <= 16)%nat ->
  parseColorValue (string_of_list_ascii (ds ++ ["%"%char])%list)
  = Normal (((decValue ds * 255 / 100) mod 256)%Z, None).
Proof.
  intros Hne H Hlen.
  pose proof (decValue_range ds H) as R.
  assert (B : (10 ^ Z.of_nat (List.length ds) <= 10 ^ 16)%Z)
    by (apply Z.pow_le_mono_r; lia).
  unfold parseColorValue. rewrite list_ascii_of_string_of_list_ascii, rev_unit.
  change ("%" =? "%")%char with true. cbv iota. rewrite rev_involutive.
  rewrite (TrimSpace_none ds (digits_nospace ds H)), (Atoi_digits ds Hne H ltac:(lia)).
  unfold wrapInt64. rewrite Z.mod_small by lia.
  replace (decValue ds * 255 + 2 ^ 63 - 2 ^ 63)%Z with (decValue ds * 255)%Z by ring.
  rewrite Z.quot_div_nonneg by lia. rewrite u8_mod. reflexivity.
Qed.

Lemma splitOn_length (sep : ascii) (l : list ascii) :
  List.length (splitOn sep l) = S (List.length (filter (fun x => (x =? sep)%char) l)).
Proof.
  induction l as [|c l IH]; simpl; [reflexivity|].
  destruct (c =? sep)%char; simpl; [now rewrite IH|].
  destruct (splitOn_cons sep l) as (p & ps & E). rewrite E in *. exact IH.
Qed.

Lemma TrimSuffix_paren (s : string) : TrimSuffix (s ++ ")") ")" = s.
Proof.
  unfold TrimSuffix. rewrite list_ascii_of_string_app. cbn [list_ascii_of_string].
  rewrite rev_unit. cbn [rev app stripPrefix].
  change (")" =? ")")%char with true. cbv iota.
  now rewrite rev_involutive, string_of_list_ascii_of_string.
Qed.

Lemma ParseSVGColor_rgb_inner (colornames : string -> option Color) (inner : string) :
  colornames (lowerString ("rgb(" ++ inner ++ ")")) = None ->
  ParseSVGColor colornames ("rgb(" ++ inner ++ ")") = rgbValues (Split inner ",").
Proof.
  intros Hcn. unfold ParseSVGColor. rewrite Hcn.
  replace (lowerString ("rgb(" ++ inner ++ ")"))
    with ("rgb(" ++ lowerString (inner ++ ")")) by reflexivity.
  cbn -[lowerString Split rgbValues TrimSuffix].
  now rewrite string_of_list_ascii_of_string, TrimSuffix_paren.
Qed.

Lemma Split_three (c1 c2 c3 : string) :
  hasByte "," c1 = false -> hasByte "," c2 = false -> hasByte "," c3 = false ->
  Split (c1 ++ "," ++ c2 ++ "," ++ c3) "," = [c1; c2; c3].
Proof.
  intros H1 H2 H3. unfold Split, hasByte in *.
  rewrite !list_ascii_of_string_app. cbn [list_ascii_of_string app].
  rewrite !splitOn_app, !splitOn_absent by assumption.
  cbn [map app]. now rewrite !string_of_list_ascii_of_string.
Qed.

(** [ParseSVGColor] on "rgb(c1,c2,c3)" (a string no colour name matches)
    returns the opaque colour of the three component values when each
    component is comma-free and parses without error. *)
Theorem ParseSVGColor_rgb (colornames : string -> option Color) (c1 c2 c3 : string)
    (v1 v2 v3 : Z) :
  colornames (lowerString ("rgb(" ++ c1 ++ "," ++ c2 ++ "," ++ c3 ++ ")")) = None ->
  hasByte "," c1 = false -> hasByte "," c2 = false -> hasByte "," c3 = false ->
  parseColorValue c1 = Normal (v1, None) ->
  parseColorValue c2 = Normal (v2, None) ->
  parseColorValue c3 = Normal (v3, None) ->
  ParseSVGColor colornames ("rgb(" ++ c1 ++ "," ++ c2 ++ "," ++ c3 ++ ")")
  = Normal (Some (NRGBA v1 v2 v3 255), None).
Proof.
  intros Hcn H1 H2 H3 P1 P2 P3.
  replace (c1 ++ "," ++ c2 ++ "," ++ c3 ++ ")") with ((c1 ++ "," ++ c2 ++ "," ++ c3) ++ ")")
    in * by (now rewrite !string_append_assoc).
  rewrite (ParseSVGColor_rgb_inner colornames _ Hcn), Split_three by assumption.
  simpl. now rewrite P1, P2, P3.
Qed.

(** [ParseSVGColor] on "rgb(...)" (no colour name) with a number of commas
    other than two returns [color.NRGBA{}] (transparent black) together
    with the parameter-mismatch error. *)
Theorem ParseSVGColor_rgb_count (colornames : string -> option Color) (inner : string) :
  colornames (lowerString ("rgb(" ++ inner ++ ")")) = None ->
  countByte "," inner <> 2%nat ->
  ParseSVGColor colornames ("rgb(" ++ inner ++ ")")
  = Normal (Some (NRGBA 0 0 0 0), Some IconParamMismatch).
Proof.
  intros Hcn Hc. rewrite (ParseSVGColor_rgb_inner colornames _ Hcn).
  unfold countByte in Hc. unfold Split.
  pose proof (splitOn_length "," (list_ascii_of_string inner)) as L.
  rewrite <- (length_map string_of_list_ascii) in L.
  destruct (map string_of_list_ascii (splitOn "," (list_ascii_of_string inner)))
    as [|a [|b [|c [|d l]]]]; simpl in L; try reflexivity.
  lia.
Qed.

(** [ParseSVGColor] on "rgb(c1,,c3)" with a valid first component
    panics: the empty second component is indexed at [len(v)-1]. *)
Theorem ParseSVGColor_rgb_empty_component (colornames : string -> option Color)
    (c1 c3 : string) (v1 : Z) :
  colornames (lowerString ("rgb(" ++ c1 ++ ",," ++ c3 ++ ")")) = None ->
  hasByte "," c1 = false -> hasByte "," c3 = false ->
  parseColorValue c1 = Normal (v1, None) ->
  ParseSVGColor colornames ("rgb(" ++ c1 ++ ",," ++ c3 ++ ")") = RuntimePanic.
Proof.
  intros Hcn H1 H3 P1.
  replace (c1 ++ ",," ++ c3 ++ ")") with ((c1 ++ "," ++ "" ++ "," ++ c3) ++ ")")
    in * by (now rewrite !string_append_assoc).
  rewrite (ParseSVGColor_rgb_inner colornames _ Hcn), Split_three by (assumption || reflexivity).
  simpl. now rewrite P1.
Qed.

(** [ParseSVGColor] on a string starting with "RGB(" (no colour name)
    returns the parameter-mismatch error: the "rgb(" prefix is tested on
    the string before lowering its case. *)
Theorem ParseSVGColor_upper_rgb (colornames : string -> option Color) (s : string) :
  colornames (lowerString ("RGB(" ++ s)) = None ->
  ParseSVGColor colornames ("RGB(" ++ s) = Normal (None, Some IconParamMismatch).
Proof.
  intros Hcn. unfold ParseSVGColor. rewrite Hcn.
  replace (lowerString ("RGB(" ++ s)) with ("rgb(" ++ lowerString s) by reflexivity.
  reflexivity.
Qed.

(** [ParseSVGColor] returns the nil colour and no error on "none" in any
    letter case. *)
Theorem ParseSVGColor_none (colornames : string -> option Color) (s : string) :
  lowerString s = "none" -> ParseSVGColor colornames s = Normal (None, None).
Proof. intros H. unfold ParseSVGColor. rewrite H. reflexivity. Qed.

(** [ParseSVGColor] on "#" and six hexadecimal digits (no colour name)
    returns the opaque colour whose bytes are the three digit pairs. *)
Theorem ParseSVGColor_hex6 (colornames : string -> option Color)
    (h1 h2 h3 h4 h5 h6 : ascii) (d1 d2 d3 d4 d5 d6 : Z) :
  colornames (lowerString (String "#" (string_of_list_ascii [h1; h2; h3; h4; h5; h6]))) = None ->
  hexVal h1 = Some d1 -> hexVal h2 = Some d2 -> hexVal h3 = Some d3 ->
  hexVal h4 = Some d4 -> hexVal h5 = Some d5 -> hexVal h6 = Some d6 ->
  ParseSVGColor colornames (String "#" (string_of_list_ascii [h1; h2; h3; h4; h5; h6]))
  = Normal (Some (NRGBA (16 * d1 + d2) (16 * d3 + d4) (16 * d5 + d6) 255), None).
Proof.
  intros Hcn H1 H2 H3 H4 H5 H6.
  unfold ParseSVGColor. rewrite Hcn.
  replace (lowerString (String "#" (string_of_list_ascii [h1; h2; h3; h4; h5; h6])))
    with (String "#" (lowerString (string_of_list_ascii [h1; h2; h3; h4; h5; h6])))
    by reflexivity.
  rewrite (ParseSVGColorNum_hex_digits h1 h2 h3 h4 h5 h6 d1 d2 d3 d4 d5 d6 H1 H2 H3 H4 H5 H6).
  reflexivity.
Qed.

Ltac splits := repeat match goal with |- _ /\ _ => split end.

Lemma ParseSVGColorNum_not_six_witness :
  (List.length (@nil ascii) <> 3%nat /\ hexVal "a" = Some 10%Z /\ hexVal "B" = Some 11%Z
   /\ hexVal "0" = Some 0%Z) /\
  ParseSVGColorNum (String "#" (string_of_list_ascii ["a"; "B"; "0"]%char))
  = Normal ((17 * 10)%Z, (17 * 11)%Z, (17 * 0)%Z, None).
Proof.
  split; [splits; [discriminate | reflexivity..]|].
  apply (ParseSVGColorNum_not_six "a" "B" "0" [] 10 11 0);
    [discriminate | reflexivity | reflexivity | reflexivity].
Defined.

Lemma ParseSVGColorNum_short_panics_witness :
  (List.length ["1"; "2"]%char < 3)%nat /\
  ParseSVGColorNum (String "#" (string_of_list_ascii ["1"; "2"]%char)) = RuntimePanic.
Proof. split; [simpl; lia | apply ParseSVGColorNum_short_panics; simpl; lia]. Defined.

Lemma parseColorValue_digits_witness :
  (["3"; "0"; "0"]%char <> [] /\ forallb isNumber ["3"; "0"; "0"]%char = true
   /\ (List.length ["3"; "0"; "0"]%char < 19)%nat) /\
  parseColorValue (string_of_list_ascii ["3"; "0"; "0"]%char)
  = Normal (Z.min (decValue ["3"; "0"; "0"]%char) 255, None).
Proof.
  split; [splits; [discriminate | reflexivity | simpl; lia]|].
  apply parseColorValue_digits; [discriminate | reflexivity | simpl; lia].
Defined.

Lemma parseColorValue_negative_witness :
  (["1"]%char <> [] /\ forallb isNumber ["1"]%char = true
   /\ (List.length ["1"]%char < 18)%nat) /\
  parseColorValue (String "-" (string_of_list_ascii ["1"]%char))
  = Normal (((- decValue ["1"]%char) mod 256)%Z, None).
Proof.
  split; [splits; [discriminate | reflexivity | simpl; lia]|].
  apply parseColorValue_negative; [discriminate | reflexivity | simpl; lia].
Defined.

Lemma parseColorValue_percent_witness :
  (["5"; "0"]%char <> [] /\ forallb isNumber ["5"; "0"]%char = true
   /\ (List.length ["5"; "0"]%char <= 16)%nat) /\
  parseColorValue (string_of_list_ascii (["5"; "0"]%char ++ ["%"%char])%list)
  = Normal (((decValue ["5"; "0"]%char * 255 / 100) mod 256)%Z, None).
Proof.
  split; [splits; [discriminate | reflexivity | simpl; lia]|].
  apply parseColorValue_percent; [discriminate | reflexivity | simpl; lia].
Defined.

Lemma ParseSVGColor_rgb_witness :
  ((fun _ : string => @None Color) (lowerString ("rgb(" ++ "255" ++ "," ++ " 50%" ++ "," ++ "-1" ++ ")")) = None
   /\ hasByte "," "255" = false /\ hasByte "," " 50%" = false /\ hasByte "," "-1" = false
   /\ parseColorValue "255" = Normal (255%Z, None)
   /\ parseColorValue " 50%" = Normal (127%Z, None)
   /\ parseColorValue "-1" = Normal (255%Z, None)) /\
  ParseSVGColor (fun _ => None) ("rgb(" ++ "255" ++ "," ++ " 50%" ++ "," ++ "-1" ++ ")")
  = Normal (Some (NRGBA 255 127 255 255), None).
Proof.
  split; [splits; vm_compute; reflexivity|].
  apply ParseSVGColor_rgb; vm_compute; reflexivity.
Defined.

Lemma ParseSVGColor_rgb_count_witness :
  ((fun _ : string => @None Color) (lowerString ("rgb(" ++ "1,2" ++ ")")) = None
   /\ countByte "," "1,2" <> 2%nat) /\
  ParseSVGColor (fun _ => None) ("rgb(" ++ "1,2" ++ ")")
  = Normal (Some (NRGBA 0 0 0 0), Some IconParamMismatch).
Proof.
  split; [split; [reflexivity | vm_compute; discriminate]|].
  apply ParseSVGColor_rgb_count; [reflexivity | vm_compute; discriminate].
Defined.

Lemma ParseSVGColor_rgb_empty_component_witness :
  ((fun _ : string => @None Color) (lowerString ("rgb(" ++ "1" ++ ",," ++ "2" ++ ")")) = None
   /\ hasByte "," "1" = false /\ hasByte "," "2" = false
   /\ parseColorValue "1" = Normal (1%Z, None)) /\
  ParseSVGColor (fun _ => None) ("rgb(" ++ "1" ++ ",," ++ "2" ++ ")") = RuntimePanic.
Proof.
  split; [splits; vm_compute; reflexivity|].
  apply (ParseSVGColor_rgb_empty_component _ _ _ 1); vm_compute; reflexivity.
Defined.

Lemma ParseSVGColor_upper_rgb_witness :
  (fun _ : string => @None Color) (lowerString ("RGB(" ++ "255,0,0)")) = None /\
  ParseSVGColor (fun _ => None) ("RGB(" ++ "255,0,0)") = Normal (None, Some IconParamMismatch).
Proof. split; [reflexivity | apply ParseSVGColor_upper_rgb; reflexivity]. Defined.

Lemma ParseSVGColor_none_witness :
  lowerString "NoNe" = "none" /\
  ParseSVGColor (fun _ => None) "NoNe" = Normal (None, None).
Proof. split; [reflexivity | apply ParseSVGColor_none; reflexivity]. Defined.

Lemma ParseSVGColor_hex6_witness :
  ((fun _ : string => @None Color)
     (lowerString (String "#" (string_of_list_ascii ["F"; "b"; "D"; "9"; "b"; "D"]%char))) = None
   /\ hexVal "F" = Some 15%Z /\ hexVal "b" = Some 11%Z /\ hexVal "D" = Some 13%Z
   /\ hexVal "9" = Some 9%Z) /\
  ParseSVGColor (fun _ => None)
    (String "#" (string_of_list_ascii ["F"; "b"; "D"; "9"; "b"; "D"]%char))
  = Normal (Some (NRGBA (16 * 15 + 11) (16 * 13 + 9) (16 * 11 + 13) 255), None).
Proof.
  split; [splits; reflexivity|].
  apply ParseSVGColor_hex6; reflexivity.
Defined.

(** ** Segments of the path compiler *)

Lemma length_valsToAbs (last : F64) (l : list F64) :
  List.length (valsToAbs last l) = List.length l.
Proof. revert last; induction l as [|p l IH]; intros last; simpl; [reflexivity | now rewrite IH]. Qed.

Lemma paramSetSize_cases (k : ascii) (sz : nat) :
  paramSetSize k = Some sz ->
  In (k, sz) [("m", 2%nat); ("M", 2%nat); ("l", 2%nat); ("L", 2%nat); ("t", 2%nat); ("T", 2%nat);
              ("v", 1%nat); ("V", 1%nat); ("h", 1%nat); ("H", 1%nat);
              ("q", 4%nat); ("Q", 4%nat); ("s", 4%nat); ("S", 4%nat);
              ("c", 6%nat); ("C", 6%nat); ("a", 7%nat); ("A", 7%nat)]%char.
Proof.
  unfold paramSetSize.
  repeat match goal with
  | |- context [(k =? ?x)%char] =>
      destruct (Ascii.eqb_spec k x) as [->|?]; [simpl; intros H; injection H as <-; simpl; tauto|]
  end.
  simpl. discriminate.
Qed.

Lemma paramSetSize_none (k : ascii) :
  paramSetSize k = None ->
  forallb (fun x => negb (k =? x)%char)
    ["m"; "M"; "l"; "L"; "t"; "T"; "v"; "V"; "h"; "H"; "q"; "Q"; "s"; "S";
     "c"; "C"; "a"; "A"]%char = true.
Proof.
  unfold paramSetSize.
  repeat match goal with
  | |- context [(k =? ?x)%char] =>
      destruct (Ascii.eqb_spec k x) as [->|?]; [simpl; discriminate|]
  end.
  intros _. simpl.
  repeat match goal with
  | |- context [(k =? ?x)%char] => destruct (Ascii.eqb_spec k x); [contradiction|]
  end.
  reflexivity.
Qed.

(** A path command whose parameter count is not a positive multiple of
    its set size (2 for M, L, T; 1 for V, H; 4 for Q, S; 6 for C; 7 for A;
    either case) makes [addSeg] fail with the parameter-mismatch error,
    and the path is left as it was. *)
Theorem addSeg_param_mismatch (P : string -> F64 * option PErr)
  (arc : F64 -> F64 -> list F64 -> list PathCmd) (k : ascii) (rest : string)
  (c : PathCursor) (pts : list F64) (sz : nat) :
  GetPoints P rest = (pts, None) ->
  paramSetSize k = Some sz ->
  ~ ((sz <= List.length pts)%nat /\ (List.length pts mod sz = 0)%nat) ->
  exists c', addSeg P arc k rest c = (c', inr ParamMismatch) /\ Path c' = Path c.
Proof.
  intros Hg Hs Hn.
  assert (Hb : ((sz <=? List.length pts) && (List.length pts mod sz =? 0))%nat = false).
  { destruct (sz <=? _)%nat eqn:E1; destruct (_ mod _ =? 0)%nat eqn:E2; try reflexivity.
    apply Nat.leb_le in E1. apply Nat.eqb_eq in E2. tauto. }
  apply paramSetSize_cases in Hs.
  destruct c as [path px py cx cy sx sy pts0 lk em ip].
  unfold addSeg. rewrite Hg.
  simpl in Hs.
  repeat (destruct Hs as [Hs|Hs];
    [injection Hs as <- <-; unfold hasSetsOrMore, bind, get, modify, ret, throw;
     cbn -[Nat.leb Nat.modulo]; rewrite ?length_valsToAbs, Hb; eexists; split; reflexivity|]).
  contradiction.
Qed.

(** A segment whose letter is not a path command is skipped: outside the
    strict error mode it emits nothing, returns no error and only records
    the letter as the last command (its numbers are dropped); in the strict
    mode it returns the unknown-command error. *)
Theorem addSeg_unknown_command (P : string -> F64 * option PErr)
  (arc : F64 -> F64 -> list F64 -> list PathCmd) (k : ascii) (rest : string)
  (c : PathCursor) (pts : list F64) :
  GetPoints P rest = (pts, None) ->
  paramSetSize k = None -> k <> "z"%char -> k <> "Z"%char ->
  addSeg P arc k rest c =
  if isStrict (errorMode c) then (set_points pts c, inr CommandUnknown)
  else (set_lastKey k (set_points pts c), inl tt).
Proof.
  intros Hg Hs Hz HZ.
  apply paramSetSize_none in Hs. simpl in Hs.
  apply Ascii.eqb_neq in Hz. apply Ascii.eqb_neq in HZ.
  repeat match type of Hs with
  | (negb ?b && _)%bool = true =>
      let E := fresh "E" in
      destruct b eqn:E; [discriminate Hs | simpl in Hs]
  | negb ?b = true =>
      let E := fresh "E" in
      destruct b eqn:E; [discriminate Hs | clear Hs]
  end.
  unfold addSeg. rewrite Hg.
  unfold bind, get, modify, ret, throw. cbn.
  repeat match goal with
  | E : (k =? _)%char = false |- _ => rewrite E; clear E
  end.
  cbn. destruct (isStrict (errorMode c)); reflexivity.
Qed.

Lemma compileLoop_skip (pre s : string) :
  forallb (fun v => negb (isLetter v && negb (v =? "e")%char)) (list_ascii_of_string pre) = true ->
  forall P arc, compileLoop P arc (pre ++ s) None = compileLoop P arc s None.
Proof.
  induction pre as [|v pre IH]; intros H P arc; [reflexivity|].
  simpl in H. apply andb_true_iff in H as [Hv H].
  simpl. destruct (isLetter v && negb (v =? "e")%char); [discriminate Hv|].
  apply IH, H.
Qed.

(** [CompilePath] ignores text before the first command letter: a prefix
    with no letter other than 'e' changes neither the result nor the
    cursor. *)
Theorem CompilePath_leading_text (P : string -> F64 * option PErr)
  (arc : F64 -> F64 -> list F64 -> list PathCmd) (pre s : string) :
  forallb (fun v => negb (isLetter v && negb (v =? "e")%char)) (list_ascii_of_string pre) = true ->
  CompilePath P arc (pre ++ s) = CompilePath P arc s.
Proof. intros H. unfold CompilePath. now rewrite (compileLoop_skip pre s H). Qed.

Lemma addSeg_param_mismatch_witness :
  (GetPoints parseFloat64 "1 2 3" = ([Fin 1%Q; Fin 2%Q; Fin 3%Q], None) /\
   paramSetSize "L" = Some 2%nat /\
   ~ ((2 <= List.length [Fin 1%Q; Fin 2%Q; Fin 3%Q])%nat /\
      (List.length [Fin 1%Q; Fin 2%Q; Fin 3%Q] mod 2 = 0)%nat)) /\
  exists c', addSeg parseFloat64 noArcs "L" "1 2 3" cursor0 = (c', inr ParamMismatch)
             /\ Path c' = Path cursor0.
Proof.
  assert (Hg : GetPoints parseFloat64 "1 2 3" = ([Fin 1%Q; Fin 2%Q; Fin 3%Q], None))
    by (vm_compute; reflexivity).
  assert (Hn : ~ ((2 <= List.length [Fin 1%Q; Fin 2%Q; Fin 3%Q])%nat /\
                  (List.length [Fin 1%Q; Fin 2%Q; Fin 3%Q] mod 2 = 0)%nat))
    by (simpl; intros [_ H]; discriminate H).
  split; [split; [exact Hg | split; [reflexivity | exact Hn]]|].
  exact (addSeg_param_mismatch parseFloat64 noArcs "L" "1 2 3" cursor0 _ 2 Hg eq_refl Hn).
Defined.

Lemma addSeg_unknown_command_witness :
  (GetPoints parseFloat64 " 1" = ([Fin 1%Q], None) /\ paramSetSize "x" = None /\
   "x"%char <> "z"%char /\ "x"%char <> "Z"%char) /\
  addSeg parseFloat64 noArcs "x" " 1" cursor0 =
  (if isStrict (errorMode cursor0) then (set_points [Fin 1%Q] cursor0, inr CommandUnknown)
   else (set_lastKey "x" (set_points [Fin 1%Q] cursor0), inl tt)).
Proof.
  assert (Hg : GetPoints parseFloat64 " 1" = ([Fin 1%Q], None)) by (vm_compute; reflexivity).
  assert (Hz : "x"%char <> "z"%char) by discriminate.
  assert (HZ : "x"%char <> "Z"%char) by discriminate.
  split; [split; [exact Hg | split; [reflexivity | split; assumption]]|].
  exact (addSeg_unknown_command parseFloat64 noArcs "x" " 1" cursor0 _ Hg eq_refl Hz HZ).
Defined.

Lemma CompilePath_leading_text_witness :
  forallb (fun v => negb (isLetter v && negb (v =? "e")%char))
    (list_ascii_of_string "1 e ") = true /\
  CompilePath parseFloat64 noArcs ("1 e " ++ "M1 1") = CompilePath parseFloat64 noArcs "M1 1".
Proof.
  split; [reflexivity | apply CompilePath_leading_text; reflexivity].
Defined.
